(** * BresenhamsTriangles: the rasterization core of [Sketch.py]

    A shallow embedding of [Sketch.drawPoint], [Sketch.drawLine],
    [Sketch.pointsOnLine] and [Sketch.drawTriangle], and the properties of
    the scan-point generator, the line rasterizer and the triangle
    rasterizer that follow from the code.

    Conventions of the embedding.
    - Python integers are [Z].
    - Python floats are kept behind the interface [Channel]; the file gives
      two instances of it: IEEE binary64 ([PrimFloat], what CPython
      computes with) and the rationals ([Q], exact arithmetic).
    - A raised exception is the [Raise] branch of [result].
    - The framebuffer [Buff] lives outside [Sketch.py]; it is represented by
      the ordered log of the item assignments [buff.buff[x, y, k] = v] that
      the code performs on it. *)

From Stdlib Require Import ZArith List Bool Lia QArith Qminmax Lqa PrimFloat.
Import ListNotations.

Local Open Scope Z_scope.

(** ** Exceptions *)

Inductive exn : Type :=
| ZeroDivisionError
| IndexError
| UnboundLocalError
| RecursionError.

Inductive result (A : Type) : Type :=
| Ok (a : A)
| Raise (e : exn).

Arguments Ok {A} a.
Arguments Raise {A} e.

Definition bind {A B : Type} (m : result A) (k : A -> result B) : result B :=
  match m with
  | Ok a => k a
  | Raise e => Raise e
  end.

Notation "x <- m ;; k" := (bind m (fun x => k))
  (at level 61, m at next level, right associativity).

(** ** Numbers *)

(** The float operations the code uses on colour channels. [of_int] is the
    implicit conversion of an [int] operand in mixed arithmetic, [fdiv_int]
    is [int / int] for a non-zero divisor. *)
Class Channel (F : Type) : Type := {
  of_int : Z -> F;
  fadd : F -> F -> F;
  fsub : F -> F -> F;
  fmul : F -> F -> F;
  fdiv_int : Z -> Z -> F
}.

(** The interpolation weight [t] is an [int] ([t = 1]) or a [float]
    ([t = (i - l_x) / dx]). *)
Inductive num (F : Type) : Type :=
| NInt (z : Z)
| NFloat (f : F).

Arguments NInt {F} z.
Arguments NFloat {F} f.

(** ** Data *)

(** Modelled from the spec: the class [ColorType], which [Sketch.py] imports
    from [ColorType.py]: "three floating-point channels", read by the code
    as [c.r], [c.g], [c.b]. *)
Record ColorType (F : Type) : Type := mkColor {
  chan_r : F;
  chan_g : F;
  chan_b : F
}.

Arguments mkColor {F} _ _ _.
Arguments chan_r {F} _.
Arguments chan_g {F} _.
Arguments chan_b {F} _.

(** Modelled from the spec: the class [Point], which [Sketch.py] imports
    from [Point.py]: "integer (x, y) position + a Color", read through
    [getCoords] and [getColor]. The coordinates are Python ints, so that
    [(i - l_x) / dx] is the true division of two ints and raises
    [ZeroDivisionError] when [dx] is zero. *)
Record Point (F : Type) : Type := mkPoint {
  getCoords : Z * Z;
  getColor : ColorType F
}.

Arguments mkPoint {F} _ _.
Arguments getCoords {F} _.
Arguments getColor {F} _.

(** One item assignment [buff.buff[x, y, k] = v]. *)
Definition Store (F : Type) : Type := (Z * Z * Z * F)%type.

(** Modelled from the spec: the class [Buff], which [Sketch.py] imports
    from [Buff.py]: "a dense 2-D grid of RGB pixel values, mutable in
    place", whose bounds are the caller's responsibility. It is kept as the
    log of the assignments made to it, oldest first; the conversion of the
    assigned float to the pixel encoding is the array's. *)
Definition Buff (F : Type) : Type := list (Store F).

(** [range(lo, hi)] *)
Definition range (lo hi : Z) : list Z :=
  map (fun k => lo + Z.of_nat k) (seq 0 (Z.to_nat (hi - lo))).

Section Rasterizer.

Context {F : Type} `{Channel F}.

Definition px (p : Point F) : Z := fst (getCoords p).
Definition py (p : Point F) : Z := snd (getCoords p).

Definition setColor (p : Point F) (c : ColorType F) : Point F :=
  mkPoint (getCoords p) c.

(** [a / b] on two ints *)
Definition truediv (a b : Z) : result F :=
  if b =? 0 then Raise ZeroDivisionError else Ok (fdiv_int a b).

Definition to_float (t : num F) : F :=
  match t with
  | NInt z => of_int z
  | NFloat f => f
  end.

(** [1 - t] *)
Definition one_minus (t : num F) : num F :=
  match t with
  | NInt z => NInt (1 - z)
  | NFloat f => NFloat (fsub (of_int 1) f)
  end.

(** [t * c] for a float channel [c] *)
Definition nmul (t : num F) (c : F) : F := fmul (to_float t) c.

(** The three [t_inv * l_c.X + t * r_c.X] lines. *)
Definition lerp (t : num F) (l_c r_c : ColorType F) : ColorType F :=
  let t_inv := one_minus t in
  let r := fadd (nmul t_inv (chan_r l_c)) (nmul t (chan_r r_c)) in
  let g := fadd (nmul t_inv (chan_g l_c)) (nmul t (chan_g r_c)) in
  let b := fadd (nmul t_inv (chan_b l_c)) (nmul t (chan_b r_c)) in
  mkColor r g b.

(** ** drawPoint *)

Definition drawPoint (buff : Buff F) (point : Point F) : Buff F :=
  let x := px point in
  let y := py point in
  let c := getColor point in
  buff ++ [ (x, y, 0, fmul (chan_r c) (of_int 255));
            (x, y, 1, fmul (chan_g c) (of_int 255));
            (x, y, 2, fmul (chan_b c) (of_int 255)) ].

(** ** pointsOnLine *)

Section PointsLoops.

Variables (doSmooth : bool) (p1_c l_c r_c : ColorType F).
Variables (l_x l_y dx dy : Z).

(** The body of the shallow [for i in range(l_x, r_x + 1)] loop. *)
Fixpoint pointsShallow (ji dy2 dy2dx2 : Z) (irange : list Z) (j D : Z)
    (pointList : list (Point F)) : result (list (Point F)) :=
  match irange with
  | [] => Ok pointList
  | i :: irange' =>
      color <- (if doSmooth
                then t <- truediv (i - l_x) dx ;;
                     Ok (lerp (NFloat t) l_c r_c)
                else Ok p1_c) ;;
      let point := mkPoint (i, j) color in
      let pointList := pointList ++ [point] in
      if 0 <? D
      then pointsShallow ji dy2 dy2dx2 irange' (j + ji) (D + dy2dx2) pointList
      else pointsShallow ji dy2 dy2dx2 irange' j (D + dy2) pointList
  end.

(** The body of the steep [for j in range(l_y, r_y + 1)] loop. *)
Fixpoint pointsSteep (ii dx2 dx2dy2 : Z) (jrange : list Z) (i D : Z)
    (pointList : list (Point F)) : result (list (Point F)) :=
  match jrange with
  | [] => Ok pointList
  | j :: jrange' =>
      color <- (if doSmooth
                then t <- truediv (j - l_y) dy ;;
                     Ok (lerp (NFloat t) l_c r_c)
                else Ok p1_c) ;;
      let point := mkPoint (i, j) color in
      let pointList := pointList ++ [point] in
      if 0 <? D
      then pointsSteep ii dx2 dx2dy2 jrange' (i + ii) (D + dx2dy2) pointList
      else pointsSteep ii dx2 dx2dy2 jrange' i (D + dx2) pointList
  end.

End PointsLoops.

Definition pointsOnLine (p1 p2 : Point F) (doSmooth : bool)
    : result (list (Point F)) :=
  let pointList := [] in
  let p1_x := px p1 in
  let p1_y := py p1 in
  let p1_c := getColor p1 in
  let p2_x := px p2 in
  let p2_y := py p2 in
  let p2_c := getColor p2 in
  if Z.abs (p2_y - p1_y) <=? Z.abs (p2_x - p1_x) then
    let l_c := if p1_x <? p2_x then p1_c else p2_c in
    let l_x := if p1_x <? p2_x then p1_x else p2_x in
    let l_y := if p1_x <? p2_x then p1_y else p2_y in
    let r_c := if p1_x <? p2_x then p2_c else p1_c in
    let r_x := if p1_x <? p2_x then p2_x else p1_x in
    let r_y := if p1_x <? p2_x then p2_y else p1_y in
    let dx := r_x - l_x in
    let dy := r_y - l_y in
    let ji := if dy <? 0 then -1 else 1 in
    let dy := if dy <? 0 then dy * -1 else dy in
    let dy2 := dy * 2 in
    let dy2dx2 := dy2 - dx * 2 in
    let D := dy2 - dx in
    let j := l_y in
    pointsShallow doSmooth p1_c l_c r_c l_x dx ji dy2 dy2dx2
      (range l_x (r_x + 1)) j D pointList
  else
    let l_c := if p1_y <? p2_y then p1_c else p2_c in
    let l_y := if p1_y <? p2_y then p1_y else p2_y in
    let l_x := if p1_y <? p2_y then p1_x else p2_x in
    let r_c := if p1_y <? p2_y then p2_c else p1_c in
    let r_y := if p1_y <? p2_y then p2_y else p1_y in
    let r_x := if p1_y <? p2_y then p2_x else p1_x in
    let dy := r_y - l_y in
    let dx := r_x - l_x in
    let ii := if dx <? 0 then -1 else 1 in
    let dx := if dx <? 0 then dx * -1 else dx in
    let dx2 := dx * 2 in
    let dx2dy2 := dx2 - dy * 2 in
    let D := dx2 - dy in
    let i := l_x in
    pointsSteep doSmooth p1_c l_c r_c l_y dy ii dx2 dx2dy2
      (range l_y (r_y + 1)) i D pointList.

(** ** drawLine *)

Section DrawLoops.

Variables (doSmooth : bool) (p1_c l_c r_c : ColorType F).
Variables (l_x l_y dx dy : Z).

(** The shallow loop of [drawLine]; it guards the division by [dx]. *)
Fixpoint drawShallow (ji dy2 dy2dx2 : Z) (irange : list Z) (j D : Z)
    (buff : Buff F) : result (Buff F) :=
  match irange with
  | [] => Ok buff
  | i :: irange' =>
      color <- (if doSmooth
                then t <- (if dx =? 0 then Ok (NInt 1)
                           else t <- truediv (i - l_x) dx ;; Ok (NFloat t)) ;;
                     Ok (lerp t l_c r_c)
                else Ok p1_c) ;;
      let point := mkPoint (i, j) color in
      let buff := drawPoint buff point in
      if 0 <? D
      then drawShallow ji dy2 dy2dx2 irange' (j + ji) (D + dy2dx2) buff
      else drawShallow ji dy2 dy2dx2 irange' j (D + dy2) buff
  end.

(** The steep loop of [drawLine]. *)
Fixpoint drawSteep (ii dx2 dx2dy2 : Z) (jrange : list Z) (i D : Z)
    (buff : Buff F) : result (Buff F) :=
  match jrange with
  | [] => Ok buff
  | j :: jrange' =>
      color <- (if doSmooth
                then t <- truediv (j - l_y) dy ;;
                     Ok (lerp (NFloat t) l_c r_c)
                else Ok p1_c) ;;
      let point := mkPoint (i, j) color in
      let buff := drawPoint buff point in
      if 0 <? D
      then drawSteep ii dx2 dx2dy2 jrange' (i + ii) (D + dx2dy2) buff
      else drawSteep ii dx2 dx2dy2 jrange' i (D + dx2) buff
  end.

End DrawLoops.

Definition drawLine (buff : Buff F) (p1 p2 : Point F) (doSmooth : bool)
    : result (Buff F) :=
  let p1_x := px p1 in
  let p1_y := py p1 in
  let p1_c := getColor p1 in
  let p2_x := px p2 in
  let p2_y := py p2 in
  let p2_c := getColor p2 in
  if Z.abs (p2_y - p1_y) <=? Z.abs (p2_x - p1_x) then
    let l_c := if p1_x <? p2_x then p1_c else p2_c in
    let l_x := if p1_x <? p2_x then p1_x else p2_x in
    let l_y := if p1_x <? p2_x then p1_y else p2_y in
    let r_c := if p1_x <? p2_x then p2_c else p1_c in
    let r_x := if p1_x <? p2_x then p2_x else p1_x in
    let r_y := if p1_x <? p2_x then p2_y else p1_y in
    let dx := r_x - l_x in
    let dy := r_y - l_y in
    let ji := if dy <? 0 then -1 else 1 in
    let dy := if dy <? 0 then dy * -1 else dy in
    let dy2 := dy * 2 in
    let dy2dx2 := dy2 - dx * 2 in
    let D := dy2 - dx in
    let j := l_y in
    drawShallow doSmooth p1_c l_c r_c l_x dx ji dy2 dy2dx2
      (range l_x (r_x + 1)) j D buff
  else
    let l_c := if p1_y <? p2_y then p1_c else p2_c in
    let l_y := if p1_y <? p2_y then p1_y else p2_y in
    let l_x := if p1_y <? p2_y then p1_x else p2_x in
    let r_c := if p1_y <? p2_y then p2_c else p1_c in
    let r_y := if p1_y <? p2_y then p2_y else p1_y in
    let r_x := if p1_y <? p2_y then p2_x else p1_x in
    let dy := r_y - l_y in
    let dx := r_x - l_x in
    let ii := if dx <? 0 then -1 else 1 in
    let dx := if dx <? 0 then dx * -1 else dx in
    let dx2 := dx * 2 in
    let dx2dy2 := dx2 - dy * 2 in
    let D := dx2 - dy in
    let i := l_x in
    drawSteep doSmooth p1_c l_c r_c l_y dy ii dx2 dx2dy2
      (range l_y (r_y + 1)) i D buff.

(** ** drawTriangle *)

(** The [while True] search of the split point. The index [i] of the source
    is the position of [line] in the generated edge: [line] here is
    [line[i:]], and indexing past the end raises [IndexError]. *)
Fixpoint splitSearch (line : list (Point F)) (y : Z) : result (Point F) :=
  match line with
  | [] => Raise IndexError
  | q :: rest =>
      match rest with
      | q' :: _ =>
          if py q =? py q' then splitSearch rest y
          else if py q =? y then Ok q
          else splitSearch rest y
      | [] =>
          if py q =? y then Ok q
          else splitSearch rest y
      end
  end.

(** [i < len(line) - 1 and line[i].y == line[i+1].y], with [rest] the
    points after [line[i]]. *)
Definition sameYNext (q : Point F) (rest : list (Point F)) : bool :=
  match rest with
  | [] => false
  | q' :: _ => py q =? py q'
  end.

(** The dual-edge [while (i != len(line1) and j != len(line2))] loop, on
    [line1[i:]] and [line2[j:]]. *)
Fixpoint scanFill (buff : Buff F) (line1 line2 : list (Point F)) {struct line1}
    : result (Buff F) :=
  match line1 with
  | [] => Ok buff
  | a :: line1' =>
      (fix scanFill2 (buff : Buff F) (line2 : list (Point F)) {struct line2}
          : result (Buff F) :=
         match line2 with
         | [] => Ok buff
         | b :: line2' =>
             if sameYNext a line1'
             then scanFill (drawPoint buff a) line1' line2
             else if sameYNext b line2'
             then scanFill2 (drawPoint buff b) line2'
             else match drawLine buff a b true with
                  | Ok buff' => scanFill buff' line1' line2'
                  | Raise e => Raise e
                  end
         end) buff line2
  end.

(** [line[0]] *)
Definition item0 (line : list (Point F)) : result (Point F) :=
  match line with
  | [] => Raise IndexError
  | q :: _ => Ok q
  end.

(** The part of [drawTriangle] after [v1], [v2], [v3] are chosen. *)
Definition fillFlat (buff : Buff F) (v1 v2 v3 : Point F) (doSmooth : bool)
    : result (Buff F) :=
  line1 <- pointsOnLine v3 v1 doSmooth ;;
  line2 <- pointsOnLine v3 v2 doSmooth ;;
  a <- item0 line1 ;;
  b <- item0 line2 ;;
  let line2 := if negb (py a =? py b) then rev line2 else line2 in
  scanFill buff line1 line2.

(** [lo < y and y < hi] or [hi < y and y < lo] *)
Definition between (y a b : Z) : bool :=
  ((a <? y) && (y <? b)) || ((y <? a) && (b <? y)).

(** [depth] bounds the nesting of calls: a call at depth [0] raises
    [RecursionError]. In flat mode the source overwrites the colours of the
    objects [p2] and [p3]; the embedding rebinds the two values. *)
Fixpoint drawTriangle (depth : nat) (buff : Buff F) (p1 p2 p3 : Point F)
    (doSmooth : bool) : result (Buff F) :=
  match depth with
  | O => Raise RecursionError
  | S depth' =>
      let p1_y := py p1 in
      let p2_y := py p2 in
      let p3_y := py p3 in
      let p2 := if negb doSmooth then setColor p2 (getColor p1) else p2 in
      let p3 := if negb doSmooth then setColor p3 (getColor p1) else p3 in
      if p1_y =? p2_y then fillFlat buff p1 p2 p3 doSmooth
      else if p2_y =? p3_y then fillFlat buff p2 p3 p1 doSmooth
      else if p3_y =? p1_y then fillFlat buff p3 p1 p2 doSmooth
      else if between p1_y p2_y p3_y then
        line <- pointsOnLine p2 p3 true ;;
        s <- splitSearch line p1_y ;;
        buff <- drawTriangle depth' buff p1 p2 s doSmooth ;;
        drawTriangle depth' buff p1 p3 s doSmooth
      else if between p2_y p1_y p3_y then
        line <- pointsOnLine p1 p3 true ;;
        s <- splitSearch line p2_y ;;
        buff <- drawTriangle depth' buff p1 p2 s doSmooth ;;
        drawTriangle depth' buff p2 p3 s doSmooth
      else if between p3_y p1_y p2_y then
        line <- pointsOnLine p1 p2 true ;;
        s <- splitSearch line p3_y ;;
        buff <- drawTriangle depth' buff p1 p3 s doSmooth ;;
        drawTriangle depth' buff p3 p2 s doSmooth
      else Raise UnboundLocalError
  end.

End Rasterizer.

(** ** The decision-variable walk shared by the four loops *)

(** The pairs (dominant coordinate, other coordinate) visited by a loop
    whose dominant coordinate runs over [ks], starting at [m] with decision
    variable [D]. *)
Fixpoint bres (step d2 d2d2 : Z) (ks : list Z) (m D : Z) : list (Z * Z) :=
  match ks with
  | [] => []
  | k :: ks' =>
      (k, m) :: (if 0 <? D
                 then bres step d2 d2d2 ks' (m + step) (D + d2d2)
                 else bres step d2 d2d2 ks' m (D + d2))
  end.

(** In one step the dominant coordinate advances by one and the other
    coordinate stays or moves by [step]. *)
Definition unitStep (step : Z) (a b : Z * Z) : Prop :=
  fst b = fst a + 1 /\ (snd b = snd a \/ snd b = snd a + step).

(** Every two neighbours of [l] are related by [R]. *)
Fixpoint chain {A : Type} (R : A -> A -> Prop) (l : list A) : Prop :=
  match l with
  | [] => True
  | a :: t =>
      match t with
      | [] => True
      | b :: _ => R a b /\ chain R t
      end
  end.

(** [s; s + d; ...], [n] values. *)
Fixpoint zrun (s d : Z) (n : nat) : list Z :=
  match n with
  | O => []
  | S n' => s :: zrun (s + d) d n'
  end.

Section Geometry.

Context {F : Type} `{Channel F}.

Definition shallow (p1 p2 : Point F) : bool :=
  Z.abs (py p2 - py p1) <=? Z.abs (px p2 - px p1).

(** The endpoints in loop order: [lft] is where the loop starts. *)
Definition lft (p1 p2 : Point F) : Point F :=
  if shallow p1 p2
  then (if px p1 <? px p2 then p1 else p2)
  else (if py p1 <? py p2 then p1 else p2).

Definition rgt (p1 p2 : Point F) : Point F :=
  if shallow p1 p2
  then (if px p1 <? px p2 then p2 else p1)
  else (if py p1 <? py p2 then p2 else p1).

Definition major (p1 p2 q : Point F) : Z :=
  if shallow p1 p2 then px q else py q.

Definition minor (p1 p2 q : Point F) : Z :=
  if shallow p1 p2 then py q else px q.

(** [dx] in the shallow case, [dy] in the steep case. *)
Definition dMajor (p1 p2 : Point F) : Z :=
  major p1 p2 (rgt p1 p2) - major p1 p2 (lft p1 p2).

(** The signed difference along the other axis. *)
Definition dMinorS (p1 p2 : Point F) : Z :=
  minor p1 p2 (rgt p1 p2) - minor p1 p2 (lft p1 p2).

(** [ji] or [ii] *)
Definition stepOf (p1 p2 : Point F) : Z :=
  if dMinorS p1 p2 <? 0 then -1 else 1.

(** [dy] or [dx] after its sign is dropped *)
Definition dMinor (p1 p2 : Point F) : Z :=
  if dMinorS p1 p2 <? 0 then dMinorS p1 p2 * -1 else dMinorS p1 p2.

Definition track (p1 p2 : Point F) : list (Z * Z) :=
  bres (stepOf p1 p2) (dMinor p1 p2 * 2)
       (dMinor p1 p2 * 2 - dMajor p1 p2 * 2)
       (range (major p1 p2 (lft p1 p2)) (major p1 p2 (rgt p1 p2) + 1))
       (minor p1 p2 (lft p1 p2))
       (dMinor p1 p2 * 2 - dMajor p1 p2).

(** (dominant, other) back to (x, y) *)
Definition place (p1 p2 : Point F) (km : Z * Z) : Z * Z :=
  if shallow p1 p2 then (fst km, snd km) else (snd km, fst km).

(** The colour of the point at dominant coordinate [k], with weight [t]. *)
Definition shadeWith (doSmooth : bool) (p1_c l_c r_c : ColorType F)
    (t : num F) : ColorType F :=
  if doSmooth then lerp t l_c r_c else p1_c.

Definition shadeAt (doSmooth : bool) (p1_c l_c r_c : ColorType F)
    (l d k : Z) : ColorType F :=
  shadeWith doSmooth p1_c l_c r_c (NFloat (fdiv_int (k - l) d)).

(** The weight the guarded shallow loop of [drawLine] uses. *)
Definition drawWeight (l_x dx i : Z) : num F :=
  if dx =? 0 then NInt 1 else NFloat (fdiv_int (i - l_x) dx).

Definition shade (p1 p2 : Point F) (doSmooth : bool) (k : Z) : ColorType F :=
  shadeAt doSmooth (getColor p1) (getColor (lft p1 p2)) (getColor (rgt p1 p2))
          (major p1 p2 (lft p1 p2)) (dMajor p1 p2) k.

(** What [pointsOnLine] returns when it returns. *)
Definition scanPoints (p1 p2 : Point F) (doSmooth : bool) : list (Point F) :=
  map (fun km => mkPoint (place p1 p2 km) (shade p1 p2 doSmooth (fst km)))
      (track p1 p2).

(** Neighbours in the generated sequence: one step along the dominant axis,
    none or one along the other. *)
Definition pixelStep (p1 p2 a b : Point F) : Prop :=
  major p1 p2 b = major p1 p2 a + 1
  /\ (minor p1 p2 b = minor p1 p2 a
      \/ minor p1 p2 b = minor p1 p2 a + stepOf p1 p2).

(** The single pixel [drawLine] writes for a zero-length segment. *)
Definition dotPoint (p1 p2 : Point F) (doSmooth : bool) : Point F :=
  mkPoint (getCoords (lft p1 p2))
          (shadeWith doSmooth (getColor p1) (getColor (lft p1 p2))
                     (getColor (rgt p1 p2)) (NInt 1)).

(** The points [drawLine] hands to [drawPoint], in order. *)
Definition drawnPoints (p1 p2 : Point F) (doSmooth : bool) : list (Point F) :=
  if dMajor p1 p2 =? 0
  then [dotPoint p1 p2 doSmooth]
  else scanPoints p1 p2 doSmooth.

(** ** The drawing commands of the dual-edge walk *)

Inductive Event : Type :=
| PlotPoint (q : Point F)
| FillLine (a b : Point F).

(** [scanFill] with the calls recorded instead of performed. *)
Fixpoint scanEvents (line1 line2 : list (Point F)) {struct line1}
    : list Event :=
  match line1 with
  | [] => []
  | a :: line1' =>
      (fix scanEvents2 (line2 : list (Point F)) {struct line2} : list Event :=
         match line2 with
         | [] => []
         | b :: line2' =>
             if sameYNext a line1'
             then PlotPoint a :: scanEvents line1' line2
             else if sameYNext b line2'
             then PlotPoint b :: scanEvents2 line2'
             else FillLine a b :: scanEvents line1' line2'
         end) line2
  end.

Fixpoint runEvents (buff : Buff F) (evs : list Event) : result (Buff F) :=
  match evs with
  | [] => Ok buff
  | PlotPoint q :: evs' => runEvents (drawPoint buff q) evs'
  | FillLine a b :: evs' =>
      buff' <- drawLine buff a b true ;;
      runEvents buff' evs'
  end.

Fixpoint fills (evs : list Event) : list (Point F * Point F) :=
  match evs with
  | [] => []
  | PlotPoint _ :: evs' => fills evs'
  | FillLine a b :: evs' => (a, b) :: fills evs'
  end.

Fixpoint plots (evs : list Event) : list (Point F) :=
  match evs with
  | [] => []
  | PlotPoint q :: evs' => q :: plots evs'
  | FillLine _ _ :: evs' => plots evs'
  end.

(** Along [line] the [y] coordinate stays or moves by [d] at each step. *)
Definition ypath (d : Z) (line : list (Point F)) : Prop :=
  chain (fun a b => py b = py a \/ py b = py a + d) line.

(** The points that end a run of equal [y]. *)
Fixpoint runEnds (line : list (Point F)) : list (Point F) :=
  match line with
  | [] => []
  | q :: rest =>
      if sameYNext q rest then runEnds rest else q :: runEnds rest
  end.

(** The points whose successor has the same [y]. *)
Fixpoint runInner (line : list (Point F)) : list (Point F) :=
  match line with
  | [] => []
  | q :: rest =>
      if sameYNext q rest then q :: runInner rest else runInner rest
  end.

(** The two edges as [drawTriangle] hands them to the walk. *)
Definition edges (v1 v2 v3 : Point F) (doSmooth : bool)
    : result (list (Point F) * list (Point F)) :=
  line1 <- pointsOnLine v3 v1 doSmooth ;;
  line2 <- pointsOnLine v3 v2 doSmooth ;;
  a <- item0 line1 ;;
  b <- item0 line2 ;;
  Ok (line1, if negb (py a =? py b) then rev line2 else line2).

(** The flat pair [v1], [v2] and the apex [v3] that [drawTriangle] picks
    when two [y] are equal. *)
Definition flatChoice (p1 p2 p3 : Point F)
    : option (Point F * Point F * Point F) :=
  if py p1 =? py p2 then Some (p1, p2, p3)
  else if py p2 =? py p3 then Some (p2, p3, p1)
  else if py p3 =? py p1 then Some (p3, p1, p2)
  else None.

(** The branch [drawTriangle] takes when no two [y] are equal: the edge to
    split, the [y] to look for and the two pairs of vertices that go to the
    recursive calls with the split point. *)
Definition splitChoice (p1 p2 p3 : Point F)
    : option (Point F * Point F * Z * (Point F * Point F) * (Point F * Point F)) :=
  if between (py p1) (py p2) (py p3)
  then Some (p2, p3, py p1, (p1, p2), (p1, p3))
  else if between (py p2) (py p1) (py p3)
  then Some (p1, p3, py p2, (p1, p2), (p2, p3))
  else if between (py p3) (py p1) (py p2)
  then Some (p1, p2, py p3, (p1, p3), (p3, p2))
  else None.

(** The flat-shading overwrite of [p2] and [p3]. *)
Definition recolor (doSmooth : bool) (p1 q : Point F) : Point F :=
  if negb doSmooth then setColor q (getColor p1) else q.

End Geometry.

(** ** What a call writes *)

Section Written.

Context {F : Type} `{Channel F}.

(** The three assignments of one [drawPoint] call. *)
Definition pixelStores (point : Point F) : list (Store F) :=
  [ (px point, py point, 0, fmul (chan_r (getColor point)) (of_int 255));
    (px point, py point, 1, fmul (chan_g (getColor point)) (of_int 255));
    (px point, py point, 2, fmul (chan_b (getColor point)) (of_int 255)) ].

(** The pixel an assignment goes to. *)
Definition storeXY (st : Store F) : Z * Z :=
  (fst (fst (fst st)), snd (fst (fst st))).

(** The rectangle [xlo..xhi] by [ylo..yhi], borders included. *)
Definition inBox (xlo xhi ylo yhi : Z) (xy : Z * Z) : Prop :=
  xlo <= fst xy <= xhi /\ ylo <= snd xy <= yhi.

(** The points a list of drawing commands mentions. *)
Fixpoint eventPoints (evs : list (@Event F)) : list (Point F) :=
  match evs with
  | [] => []
  | PlotPoint q :: evs' => q :: eventPoints evs'
  | FillLine a b :: evs' => a :: b :: eventPoints evs'
  end.

End Written.

(** ** The mouse and keyboard handlers *)

Module Sketch.

(** [MIN_N_STEPS], [MAX_N_STEPS] *)
Definition MIN_N_STEPS : Z := 6.
Definition MAX_N_STEPS : Z := 192.

(** [round(n / 2)] for an int [n]: the quotient when [n] is even, else the
    even one of the two nearest ints (exact as long as [n / 2] is, up to
    [2^53]). *)
Definition roundHalf (n : Z) : Z :=
  if Z.even n then n / 2
  else if Z.even (n / 2) then n / 2 else n / 2 + 1.

(** The right-hand side of [self.n_steps = max(self.MIN_N_STEPS,
    round(self.n_steps / 2))], the update on [,] and [<]. *)
Definition fewerSteps (n_steps : Z) : Z :=
  Z.max MIN_N_STEPS (roundHalf n_steps).

(** The right-hand side of [self.n_steps = min(self.MAX_N_STEPS,
    round(self.n_steps * 2))], the update on [.] and [>]. *)
Definition moreSteps (n_steps : Z) : Z :=
  Z.min MAX_N_STEPS (n_steps * 2).

(** The update of [self.test_case_index] on LEFT and UP, for a
    [test_case_list] of [count] entries: guarded by [count != 0]. *)
Definition prevCase (count test_case_index : Z) : Z :=
  if negb (count =? 0) then (test_case_index - 1) mod count
  else test_case_index.

(** The update on [t], [T], RIGHT and DOWN. *)
Definition nextCase (count test_case_index : Z) : Z :=
  if negb (count =? 0) then (test_case_index + 1) mod count
  else test_case_index.

(** A run of [,] (false) and [.] (true) presses, as far as [n_steps]
    goes. *)
Definition pressSteps (n_steps : Z) (keys : list bool) : Z :=
  fold_left (fun (n : Z) (more : bool) =>
               if more then moreSteps n else fewerSteps n)
            keys n_steps.

(** The nesting of Python calls is bounded, by 1000 unless it was reset; a
    handler starts [drawTriangle] with that much depth. *)
Definition callDepth : nat := 1000.

(** [l[-k]] for [k >= 1] *)
Definition fromEnd {A : Type} (l : list A) (k : nat) : result A :=
  if (k <=? length l)%nat
  then match nth_error l (length l - k) with
       | Some a => Ok a
       | None => Raise IndexError
       end
  else Raise IndexError.

Section Handlers.

Context {F : Type} `{Channel F}.

(** The fields of the canvas the mouse handlers read and write. The two
    point lists and [buff] are the parent class's, "to store all Points from
    Mouse Right (Left) Button" and the "buff of current frame". *)
Record State : Type := mkState {
  points_l : list (Point F);
  points_r : list (Point F);
  buff : Buff F;
  randomColor : bool;
  doSmooth : bool
}.

(** The point [__addPoint2Pointlist] builds; [rnd] holds the three values
    [random.random()] returns when [randomColor] is set. *)
Definition newPoint (randomColor : bool) (rnd : F * F * F) (x y : Z)
    : Point F :=
  if randomColor
  then mkPoint (x, y) (mkColor (fst (fst rnd)) (snd (fst rnd)) (snd rnd))
  else mkPoint (x, y) (mkColor (of_int 1) (of_int 0) (of_int 0)).

Definition addPoint2Pointlist (randomColor : bool) (rnd : F * F * F)
    (pointlist : list (Point F)) (x y : Z) : list (Point F) :=
  pointlist ++ [newPoint randomColor rnd x y].

(** A handler leaves a state behind and may have raised. When a drawing
    call raises, the state keeps the point just appended. *)
Definition Interrupt_MouseL (st : State) (x y : Z) (rnd : F * F * F)
    : State * option exn :=
  let pts := addPoint2Pointlist (randomColor st) rnd (points_l st) x y in
  let st := mkState pts (points_r st) (buff st) (randomColor st) (doSmooth st) in
  let len := Z.of_nat (length pts) in
  if len mod 2 =? 1 then (st, None)
  else if (len mod 2 =? 0) && (0 <? len) then
    match (a <- fromEnd pts 1 ;;
           b <- fromEnd pts 2 ;;
           drawLine (buff st) a b (doSmooth st)) with
    | Ok buff' =>
        (mkState [] (points_r st) buff' (randomColor st) (doSmooth st), None)
    | Raise e => (st, Some e)
    end
  else (st, None).

Definition Interrupt_MouseR (st : State) (x y : Z) (rnd : F * F * F)
    : State * option exn :=
  let pts := addPoint2Pointlist (randomColor st) rnd (points_r st) x y in
  let st := mkState (points_l st) pts (buff st) (randomColor st) (doSmooth st) in
  let len := Z.of_nat (length pts) in
  if len mod 3 =? 2 then
    match (a <- fromEnd pts 2 ;;
           b <- fromEnd pts 1 ;;
           drawLine (buff st) a b (doSmooth st)) with
    | Ok buff' =>
        (mkState (points_l st) pts buff' (randomColor st) (doSmooth st), None)
    | Raise e => (st, Some e)
    end
  else if (len mod 3 =? 0) && (0 <? len) then
    match (a <- fromEnd pts 3 ;;
           b <- fromEnd pts 2 ;;
           c <- fromEnd pts 1 ;;
           drawTriangle callDepth (buff st) a b c (doSmooth st)) with
    | Ok buff' =>
        (mkState (points_l st) [] buff' (randomColor st) (doSmooth st), None)
    | Raise e => (st, Some e)
    end
  else (st, None).

(** A click: the pixel and the random values at hand. *)
Definition Click : Type := (Z * Z * (F * F * F))%type.

(** Clicks handled one after the other, up to the first that raises. *)
Fixpoint clicks (handler : State -> Z -> Z -> F * F * F -> State * option exn)
    (st : State) (cs : list Click) : State * option exn :=
  match cs with
  | [] => (st, None)
  | (x, y, rnd) :: cs' =>
      match handler st x y rnd with
      | (st', None) => clicks handler st' cs'
      | (st', Some e) => (st', Some e)
      end
  end.

End Handlers.

End Sketch.

(** ** Two arithmetics for the colour channels *)

(** IEEE binary64. The conversion of an int is exact up to [2^53]. *)
Module Binary64.

Fixpoint float_of_pos (p : positive) : float :=
  match p with
  | xH => 1%float
  | xO q => (2 * float_of_pos q)%float
  | xI q => (2 * float_of_pos q + 1)%float
  end.

Definition float_of_Z (z : Z) : float :=
  match z with
  | Z0 => 0%float
  | Zpos p => float_of_pos p
  | Zneg p => (- float_of_pos p)%float
  end.

#[global] Instance channel : Channel float := {
  of_int := float_of_Z;
  fadd := PrimFloat.add;
  fsub := PrimFloat.sub;
  fmul := PrimFloat.mul;
  fdiv_int := fun a b => PrimFloat.div (float_of_Z a) (float_of_Z b)
}.

End Binary64.

(** Exact rational arithmetic. *)
Module Exact.

#[global] Instance channel : Channel Q := {
  of_int := inject_Z;
  fadd := Qplus;
  fsub := Qminus;
  fmul := Qmult;
  fdiv_int := fun a b => Qdiv (inject_Z a) (inject_Z b)
}.




End Exact.



(** ** Sample inputs *)

Module Demo.

Definition red : ColorType Q := mkColor 1%Q 0%Q 0%Q.
Definition blue : ColorType Q := mkColor 0%Q 0%Q 1%Q.

Definition at_ (x y : Z) (c : ColorType Q) : Point Q := mkPoint (x, y) c.

(** The flat triangle (0,0), (4,0), (8,2) and its two edges from the apex,
    as [pointsOnLine] returns them in flat mode. *)
Definition flat1 : Point Q := at_ 0 0 red.
Definition flat2 : Point Q := at_ 4 0 red.
Definition apex : Point Q := at_ 8 2 red.

Definition edge1 : list (Point Q) :=
  [at_ 0 0 red; at_ 1 0 red; at_ 2 0 red; at_ 3 1 red; at_ 4 1 red;
   at_ 5 1 red; at_ 6 1 red; at_ 7 2 red; at_ 8 2 red].

Definition edge2 : list (Point Q) :=
  [at_ 4 0 red; at_ 5 0 red; at_ 6 1 red; at_ 7 1 red; at_ 8 2 red].

(** The triangle (0,0), (3,3), (5,1): no two vertices on one level. *)
Definition low : Point Q := at_ 0 0 red.
Definition high : Point Q := at_ 3 3 red.
Definition mid : Point Q := at_ 5 1 red.

(** The segment (0,0)-(2,1), red to blue. *)
Definition seg1 : Point Q := at_ 0 0 red.
Definition seg2 : Point Q := at_ 2 1 blue.

Definition segFlat : list (Point Q) :=
  [at_ 0 0 red; at_ 1 0 red; at_ 2 1 red].


(** Binary64: the grey 0.9 (the double nearest to it) and its successor. *)
Definition g9 : float := 0x1.ccccccccccccdp-1%float.
Definition g9up : float := 0x1.ccccccccccccep-1%float.

Definition grey (v : float) : ColorType float := mkColor v v v.

Definition fat (x y : Z) (v : float) : Point float := mkPoint (x, y) (grey v).

End Demo.

(** Sample canvases and clicks. *)
Module Samples.

Import Demo.

Definition noRandom : Q * Q * Q := (0%Q, 0%Q, 0%Q).

(** A fresh canvas in flat mode, and one in smooth mode. *)
Definition flatCanvas : Sketch.State (F := Q) :=
  Sketch.mkState [] [] [] false false.

Definition smoothCanvas : Sketch.State (F := Q) :=
  Sketch.mkState [] [] [] false true.

Definition fourClicks : list (Sketch.Click (F := Q)) :=
  [(0, 0, noRandom); (4, 0, noRandom); (8, 2, noRandom); (3, 3, noRandom)].

(** What [drawTriangle] writes for the triangle (0,0), (4,0), (8,2) on an
    empty log, in flat mode. *)
Definition flatTriangleLog : Buff Q :=
  Eval vm_compute in
    match drawTriangle 1 [] flat1 flat2 apex false with
    | Ok b => b
    | Raise _ => []
    end.



End Samples.

(** * Properties *)

(** ** [range] and [chain] *)

Lemma range_nil (lo hi : Z) : hi <= lo -> range lo hi = [].
Proof.
  intros Hle. unfold range.
  replace (Z.to_nat (hi - lo)) with 0%nat by lia. reflexivity.
Qed.

Lemma range_cons (lo hi : Z) : lo < hi -> range lo hi = lo :: range (lo + 1) hi.
Proof.
  intros Hlt. unfold range.
  replace (Z.to_nat (hi - lo)) with (S (Z.to_nat (hi - (lo + 1)))) by lia.
  cbn [seq map]. f_equal; [lia|].
  rewrite <- seq_shift, map_map.
  apply map_ext. intros k. lia.
Qed.

Lemma range_length (lo hi : Z) : length (range lo hi) = Z.to_nat (hi - lo).
Proof. unfold range. now rewrite length_map, length_seq. Qed.

(** Induction over [range lo hi] from its lower end. *)
Lemma range_ind (P : Z -> list Z -> Prop) (hi : Z) :
  (forall lo, hi <= lo -> P lo []) ->
  (forall lo, lo < hi -> P (lo + 1) (range (lo + 1) hi) ->
              P lo (lo :: range (lo + 1) hi)) ->
  forall lo, P lo (range lo hi).
Proof.
  intros Hnil Hcons lo.
  remember (Z.to_nat (hi - lo)) as n eqn:Hn.
  revert lo Hn. induction n as [|n IH]; intros lo Hn.
  - rewrite range_nil by lia. apply Hnil. lia.
  - rewrite range_cons by lia. apply Hcons; [lia|]. apply IH. lia.
Qed.

Lemma last_nonempty {A : Type} (a : A) (t : list A) (d d' : A) :
  last (a :: t) d = last (a :: t) d'.
Proof.
  revert a. induction t as [|b t IH]; intros a; [reflexivity|].
  change (last (b :: t) d = last (b :: t) d'). apply IH.
Qed.

Lemma last_cons_cons {A : Type} (a b : A) (t : list A) :
  last (a :: b :: t) a = last (b :: t) b.
Proof. change (last (b :: t) a = last (b :: t) b). apply last_nonempty. Qed.

Lemma chain_cons {A : Type} (R : A -> A -> Prop) (a b : A) (l : list A) :
  chain R (a :: b :: l) <-> R a b /\ chain R (b :: l).
Proof. reflexivity. Qed.

Lemma chain_map {A B : Type} (f : A -> B) (R : A -> A -> Prop)
    (S : B -> B -> Prop) (l : list A) :
  (forall a b, R a b -> S (f a) (f b)) -> chain R l -> chain S (map f l).
Proof.
  intros HRS. induction l as [|a [|b t] IH]; cbn; auto.
  intros [Hab Ht]. split; [now apply HRS | now apply IH].
Qed.

Lemma chain_weaken {A : Type} (R S : A -> A -> Prop) (l : list A) :
  (forall a b, R a b -> S a b) -> chain R l -> chain S l.
Proof.
  intros HRS Hl. rewrite <- (map_id l). now apply chain_map with (R := R).
Qed.

Lemma chain_rev {A : Type} (R : A -> A -> Prop) (l : list A) :
  chain R l -> chain (fun a b => R b a) (rev l).
Proof.
  assert (Hsnoc : forall (S : A -> A -> Prop) l x y,
             chain S (l ++ [x]) -> S x y -> chain S ((l ++ [x]) ++ [y])).
  { intros S l0 x y. induction l0 as [|a [|b t] IH]; cbn; auto.
    - intros [Hax _] Hxy. auto.
    - intros [Hab Ht] Hxy. split; [exact Hab|]. now apply IH. }
  induction l as [|a [|b t] IH]; cbn; auto.
  intros [Hab Ht]. cbn in IH. apply Hsnoc; auto.
Qed.

(** ** The decision-variable walk *)

Section Bres.

Variables (step d2 d2d2 : Z).

Lemma bres_fst (ks : list Z) :
  forall m D, map fst (bres step d2 d2d2 ks m D) = ks.
Proof.
  induction ks as [|k ks IH]; intros m D; cbn; [reflexivity|].
  f_equal. destruct (0 <? D); apply IH.
Qed.

Lemma bres_length (ks : list Z) (m D : Z) :
  length (bres step d2 d2d2 ks m D) = length ks.
Proof. now rewrite <- (bres_fst ks m D) at 2; rewrite length_map. Qed.

(** The walk is a chain of unit steps. *)
Lemma bres_chain (hi : Z) :
  forall lo m D, chain (unitStep step) (bres step d2 d2d2 (range lo hi) m D).
Proof.
  intros lo. pattern lo, (range lo hi). apply range_ind; clear lo.
  - intros lo _ m D. exact I.
  - intros lo Hlt IH m D. cbn [bres].
    destruct (Z.ltb_spec (lo + 1) hi) as [Hlt'|Hge].
    + rewrite (range_cons (lo + 1) hi Hlt') in *.
      destruct (0 <? D).
      * specialize (IH (m + step) (D + d2d2)). cbn [bres] in *.
        split; [|exact IH]. unfold unitStep; cbn. auto.
      * specialize (IH m (D + d2)). cbn [bres] in *.
        split; [|exact IH]. unfold unitStep; cbn. auto.
    + rewrite (range_nil (lo + 1) hi) by lia.
      destruct (0 <? D); exact I.
Qed.

End Bres.

(** The loop ends on the far endpoint: after [dM] steps the other
    coordinate has moved [dm] times. *)
Lemma bres_last (step l dM dm m0 : Z) (d : Z * Z) :
  0 <= dm <= dM ->
  forall lo m D c,
    l <= lo <= l + dM ->
    m = m0 + step * c ->
    D = 2 * dm * (lo - l + 1) - dM * (2 * c + 1) ->
    2 * dm - 2 * dM <= D <= 2 * dm ->
    (dM = 0 -> c = dm) ->
    last (bres step (dm * 2) (dm * 2 - dM * 2) (range lo (l + dM + 1)) m D) d
    = (l + dM, m0 + step * dm).
Proof.
  intros Hdm lo.
  pattern lo, (range lo (l + dM + 1)). apply range_ind; clear lo.
  - intros lo Hhi m D c Hlo. lia.
  - intros lo Hlt IH m D c Hlo Hm HD Hbnd H0.
    cbn [bres].
    destruct (Z.eq_dec lo (l + dM)) as [Hend|Hmid].
    + rewrite (range_nil (lo + 1)) by lia.
      assert (Hc : c = dm).
      { destruct (Z.eq_dec dM 0) as [Hz|Hnz]; [auto|].
        subst lo. replace (l + dM - l + 1) with (dM + 1) in HD by lia.
        assert (c < dm \/ c = dm \/ dm < c) as [Hc|[Hc|Hc]] by lia;
          [exfalso; nia | exact Hc | exfalso; nia]. }
      destruct (0 <? D); cbn; subst; reflexivity.
    + assert (Hne : forall m' D', bres step (dm * 2) (dm * 2 - dM * 2)
                      (range (lo + 1) (l + dM + 1)) m' D' <> []).
      { intros m' D' Hnil. apply (f_equal (@length _)) in Hnil.
        rewrite bres_length, range_length in Hnil. cbn in Hnil. lia. }
      destruct (Z.ltb_spec 0 D) as [Hpos|Hneg].
      * specialize (IH (m + step) (D + (dm * 2 - dM * 2)) (c + 1)).
        specialize (Hne (m + step) (D + (dm * 2 - dM * 2))).
        destruct (bres step (dm * 2) (dm * 2 - dM * 2)
                    (range (lo + 1) (l + dM + 1)) (m + step)
                    (D + (dm * 2 - dM * 2))) as [|x t] eqn:E;
          [congruence|].
        cbn [last]. cbn [last] in IH. apply IH; lia.
      * specialize (IH m (D + dm * 2) c).
        specialize (Hne m (D + dm * 2)).
        destruct (bres step (dm * 2) (dm * 2 - dM * 2)
                    (range (lo + 1) (l + dM + 1)) m (D + dm * 2)) as [|x t] eqn:E;
          [congruence|].
        cbn [last]. cbn [last] in IH. apply IH; lia.
Qed.

(** ** The four loops as maps over the walk *)

Section Loops.

Context {F : Type} `{Channel F}.

Variables (doSmooth : bool) (p1_c l_c r_c : ColorType F).

Lemma bind_ok {A B : Type} (a : A) (k : A -> result B) : bind (Ok a) k = k a.
Proof. reflexivity. Qed.

Lemma truediv_ok (a b : Z) : b <> 0 -> truediv a b = Ok (fdiv_int a b).
Proof.
  intros Hb. unfold truediv. destruct (Z.eqb_spec b 0); [contradiction|reflexivity].
Qed.

Lemma truediv_zero (a : Z) : truediv a 0 = Raise ZeroDivisionError.
Proof. reflexivity. Qed.

Lemma pointsShallow_ok (l_x dx ji dy2 dy2dx2 : Z) :
  doSmooth = false \/ dx <> 0 ->
  forall irange j D pointList,
    pointsShallow doSmooth p1_c l_c r_c l_x dx ji dy2 dy2dx2 irange j D pointList
    = Ok (pointList ++
          map (fun km => mkPoint (fst km, snd km)
                           (shadeAt doSmooth p1_c l_c r_c l_x dx (fst km)))
              (bres ji dy2 dy2dx2 irange j D)).
Proof.
  intros Hsafe irange.
  induction irange as [|i irange IH]; intros j D pointList; cbn [pointsShallow bres map].
  - now rewrite app_nil_r.
  - assert (Hcol : (if doSmooth
                    then t <- truediv (i - l_x) dx ;; Ok (lerp (NFloat t) l_c r_c)
                    else Ok p1_c)
                   = Ok (shadeAt doSmooth p1_c l_c r_c l_x dx i)).
    { unfold shadeAt, shadeWith. destruct doSmooth; [|reflexivity].
      destruct Hsafe as [Hs|Hdx]; [discriminate|].
      now rewrite truediv_ok. }
    rewrite Hcol, bind_ok.
    destruct (0 <? D); rewrite IH, <- app_assoc; reflexivity.
Qed.

Lemma pointsShallow_raise (l_x ji dy2 dy2dx2 i : Z) (irange : list Z)
    (j D : Z) (pointList : list (Point F)) :
  doSmooth = true ->
  pointsShallow doSmooth p1_c l_c r_c l_x 0 ji dy2 dy2dx2 (i :: irange) j D pointList
  = Raise ZeroDivisionError.
Proof. intros ->. reflexivity. Qed.

Lemma pointsSteep_ok (l_y dy ii dx2 dx2dy2 : Z) :
  doSmooth = false \/ dy <> 0 ->
  forall jrange i D pointList,
    pointsSteep doSmooth p1_c l_c r_c l_y dy ii dx2 dx2dy2 jrange i D pointList
    = Ok (pointList ++
          map (fun km => mkPoint (snd km, fst km)
                           (shadeAt doSmooth p1_c l_c r_c l_y dy (fst km)))
              (bres ii dx2 dx2dy2 jrange i D)).
Proof.
  intros Hsafe jrange.
  induction jrange as [|j jrange IH]; intros i D pointList; cbn [pointsSteep bres map].
  - now rewrite app_nil_r.
  - assert (Hcol : (if doSmooth
                    then t <- truediv (j - l_y) dy ;; Ok (lerp (NFloat t) l_c r_c)
                    else Ok p1_c)
                   = Ok (shadeAt doSmooth p1_c l_c r_c l_y dy j)).
    { unfold shadeAt, shadeWith. destruct doSmooth; [|reflexivity].
      destruct Hsafe as [Hs|Hdy]; [discriminate|].
      now rewrite truediv_ok. }
    rewrite Hcol, bind_ok.
    destruct (0 <? D); rewrite IH, <- app_assoc; reflexivity.
Qed.

Lemma drawShallow_ok (l_x dx ji dy2 dy2dx2 : Z) :
  forall irange j D buff,
    drawShallow doSmooth p1_c l_c r_c l_x dx ji dy2 dy2dx2 irange j D buff
    = Ok (fold_left drawPoint
            (map (fun km => mkPoint (fst km, snd km)
                              (shadeWith doSmooth p1_c l_c r_c
                                         (drawWeight l_x dx (fst km))))
                 (bres ji dy2 dy2dx2 irange j D))
            buff).
Proof.
  intros irange.
  induction irange as [|i irange IH]; intros j D buff;
    cbn [drawShallow bres map fold_left]; [reflexivity|].
  assert (Hcol : (if doSmooth
                  then t <- (if dx =? 0 then Ok (NInt 1)
                             else t <- truediv (i - l_x) dx ;; Ok (NFloat t)) ;;
                       Ok (lerp t l_c r_c)
                  else Ok p1_c)
                 = Ok (shadeWith doSmooth p1_c l_c r_c (drawWeight l_x dx i))).
  { unfold shadeWith, drawWeight. destruct doSmooth; [|reflexivity].
    destruct (Z.eqb_spec dx 0) as [Hz|Hnz]; [reflexivity|].
    now rewrite truediv_ok. }
  rewrite Hcol, bind_ok.
  destruct (0 <? D); rewrite IH; reflexivity.
Qed.

Lemma drawSteep_ok (l_y dy ii dx2 dx2dy2 : Z) :
  doSmooth = false \/ dy <> 0 ->
  forall jrange i D buff,
    drawSteep doSmooth p1_c l_c r_c l_y dy ii dx2 dx2dy2 jrange i D buff
    = Ok (fold_left drawPoint
            (map (fun km => mkPoint (snd km, fst km)
                              (shadeAt doSmooth p1_c l_c r_c l_y dy (fst km)))
                 (bres ii dx2 dx2dy2 jrange i D))
            buff).
Proof.
  intros Hsafe jrange.
  induction jrange as [|j jrange IH]; intros i D buff;
    cbn [drawSteep bres map fold_left]; [reflexivity|].
  assert (Hcol : (if doSmooth
                  then t <- truediv (j - l_y) dy ;; Ok (lerp (NFloat t) l_c r_c)
                  else Ok p1_c)
                 = Ok (shadeAt doSmooth p1_c l_c r_c l_y dy j)).
  { unfold shadeAt, shadeWith. destruct doSmooth; [|reflexivity].
    destruct Hsafe as [Hs|Hdy]; [discriminate|].
    now rewrite truediv_ok. }
  rewrite Hcol, bind_ok.
  destruct (0 <? D); rewrite IH; reflexivity.
Qed.

End Loops.

(** ** The geometry of a segment *)

Section LineFacts.

Context {F : Type} `{Channel F}.

Ltac geom :=
  unfold dMinor, stepOf, dMinorS, dMajor, major, minor, lft, rgt, shallow in *;
  repeat match goal with
         | |- context [?a <=? ?b] => destruct (Z.leb_spec a b)
         | |- context [?a <? ?b] => destruct (Z.ltb_spec a b)
         | _ : context [?a <=? ?b] |- _ => destruct (Z.leb_spec a b)
         | _ : context [?a <? ?b] |- _ => destruct (Z.ltb_spec a b)
         end.

Lemma dMinor_bounds (p1 p2 : Point F) : 0 <= dMinor p1 p2 <= dMajor p1 p2.
Proof. geom; lia. Qed.

Lemma steep_dMajor_pos (p1 p2 : Point F) :
  shallow p1 p2 = false -> 0 < dMajor p1 p2.
Proof. geom; intros; try discriminate; lia. Qed.

Lemma coords_eq (p q : Point F) :
  getCoords p = getCoords q <-> px p = px q /\ py p = py q.
Proof.
  unfold px, py. destruct (getCoords p), (getCoords q); cbn.
  split; [intros [= -> ->]; auto | intros [-> ->]; reflexivity].
Qed.

Lemma dMajor_zero (p1 p2 : Point F) :
  dMajor p1 p2 = 0 <-> getCoords p1 = getCoords p2.
Proof. rewrite coords_eq. geom; lia. Qed.

Lemma stepOf_unit (p1 p2 : Point F) : stepOf p1 p2 = 1 \/ stepOf p1 p2 = -1.
Proof. unfold stepOf. destruct (dMinorS p1 p2 <? 0); auto. Qed.

Lemma minor_rgt (p1 p2 : Point F) :
  minor p1 p2 (rgt p1 p2)
  = minor p1 p2 (lft p1 p2) + stepOf p1 p2 * dMinor p1 p2.
Proof. geom; lia. Qed.

Lemma major_rgt (p1 p2 : Point F) :
  major p1 p2 (rgt p1 p2) = major p1 p2 (lft p1 p2) + dMajor p1 p2.
Proof. unfold dMajor. lia. Qed.

Lemma lft_rgt_cases (p1 p2 : Point F) :
  (lft p1 p2 = p1 /\ rgt p1 p2 = p2) \/ (lft p1 p2 = p2 /\ rgt p1 p2 = p1).
Proof.
  unfold lft, rgt.
  destruct (shallow p1 p2), (px p1 <? px p2), (py p1 <? py p2); auto.
Qed.

Lemma place_coords (p1 p2 q : Point F) :
  place p1 p2 (major p1 p2 q, minor p1 p2 q) = getCoords q.
Proof.
  unfold place, major, minor, px, py.
  destruct (shallow p1 p2), (getCoords q); reflexivity.
Qed.

(** *** [pointsOnLine] and [drawLine] in closed form *)

Lemma pointsOnLine_eq (p1 p2 : Point F) (doSmooth : bool) :
  pointsOnLine p1 p2 doSmooth
  = if doSmooth && (dMajor p1 p2 =? 0)
    then Raise ZeroDivisionError
    else Ok (scanPoints p1 p2 doSmooth).
Proof.
  pose proof (steep_dMajor_pos p1 p2) as Hsteep.
  unfold pointsOnLine, scanPoints, track, shade, place.
  unfold dMinor, stepOf, dMinorS, dMajor, major, minor, lft, rgt, shallow in *.
  cbv zeta.
  destruct (Z.abs (py p2 - py p1) <=? Z.abs (px p2 - px p1)) eqn:Hsh.
  - destruct (px p1 <? px p2) eqn:Hlt.
    + destruct (doSmooth && (px p2 - px p1 =? 0)) eqn:Hz.
      * apply andb_prop in Hz as [-> Hz]. apply Z.eqb_eq in Hz.
        rewrite Hz, range_cons by lia. reflexivity.
      * rewrite pointsShallow_ok; [reflexivity|].
        destruct doSmooth; [right|left; reflexivity].
        cbn in Hz. now apply Z.eqb_neq.
    + destruct (doSmooth && (px p1 - px p2 =? 0)) eqn:Hz.
      * apply andb_prop in Hz as [-> Hz]. apply Z.eqb_eq in Hz.
        rewrite Hz, range_cons by lia. reflexivity.
      * rewrite pointsShallow_ok; [reflexivity|].
        destruct doSmooth; [right|left; reflexivity].
        cbn in Hz. now apply Z.eqb_neq.
  - specialize (Hsteep eq_refl).
    destruct (py p1 <? py p2) eqn:Hlt.
    + destruct (Z.eqb_spec (py p2 - py p1) 0) as [Hz|Hnz]; [lia|].
      rewrite andb_false_r.
      rewrite pointsSteep_ok; [reflexivity|now right].
    + destruct (Z.eqb_spec (py p1 - py p2) 0) as [Hz|Hnz]; [lia|].
      rewrite andb_false_r.
      rewrite pointsSteep_ok; [reflexivity|now right].
Qed.

Lemma drawLine_eq (buff : Buff F) (p1 p2 : Point F) (doSmooth : bool) :
  drawLine buff p1 p2 doSmooth
  = Ok (fold_left drawPoint (drawnPoints p1 p2 doSmooth) buff).
Proof.
  pose proof (steep_dMajor_pos p1 p2) as Hsteep.
  unfold drawLine, drawnPoints, dotPoint, scanPoints, track, shade, place.
  unfold dMinor, stepOf, dMinorS, dMajor, major, minor, lft, rgt, shallow in *.
  cbv zeta.
  destruct (Z.abs (py p2 - py p1) <=? Z.abs (px p2 - px p1)) eqn:Hsh.
  - rewrite drawShallow_ok. do 2 f_equal.
    destruct (px p1 <? px p2) eqn:Hlt.
    + destruct (Z.eqb_spec (px p2 - px p1) 0) as [Hz|Hnz].
      * rewrite Hz, range_cons, range_nil by lia. cbn [bres map].
        match goal with |- context [if ?c then [] else []] => destruct c end;
          cbn [map]; unfold px, py; destruct (getCoords p1); reflexivity.
      * apply map_ext. intros km. unfold shadeAt, drawWeight.
        destruct (Z.eqb_spec (px p2 - px p1) 0); [contradiction|reflexivity].
    + destruct (Z.eqb_spec (px p1 - px p2) 0) as [Hz|Hnz].
      * rewrite Hz, range_cons, range_nil by lia. cbn [bres map].
        match goal with |- context [if ?c then [] else []] => destruct c end;
          cbn [map]; unfold px, py; destruct (getCoords p2); reflexivity.
      * apply map_ext. intros km. unfold shadeAt, drawWeight.
        destruct (Z.eqb_spec (px p1 - px p2) 0); [contradiction|reflexivity].
  - specialize (Hsteep eq_refl).
    destruct (py p1 <? py p2) eqn:Hlt.
    + destruct (Z.eqb_spec (py p2 - py p1) 0) as [Hz|Hnz]; [lia|].
      rewrite drawSteep_ok; [reflexivity|now right].
    + destruct (Z.eqb_spec (py p1 - py p2) 0) as [Hz|Hnz]; [lia|].
      rewrite drawSteep_ok; [reflexivity|now right].
Qed.

End LineFacts.

(** ** The generated sequence *)

Section Track.

Context {F : Type} `{Channel F}.

Lemma track_fst (p1 p2 : Point F) :
  map fst (track p1 p2)
  = range (major p1 p2 (lft p1 p2)) (major p1 p2 (rgt p1 p2) + 1).
Proof. apply bres_fst. Qed.

Lemma track_head (p1 p2 : Point F) :
  exists t, track p1 p2
            = (major p1 p2 (lft p1 p2), minor p1 p2 (lft p1 p2)) :: t.
Proof.
  unfold track. pose proof (dMinor_bounds p1 p2) as Hb.
  rewrite range_cons by (rewrite major_rgt; lia).
  cbn [bres]. eexists. reflexivity.
Qed.

Lemma track_last (p1 p2 : Point F) (d : Z * Z) :
  last (track p1 p2) d
  = (major p1 p2 (rgt p1 p2), minor p1 p2 (rgt p1 p2)).
Proof.
  unfold track. pose proof (dMinor_bounds p1 p2) as Hb.
  rewrite major_rgt, minor_rgt.
  apply bres_last with (c := 0); lia.
Qed.

Lemma track_chain (p1 p2 : Point F) :
  chain (unitStep (stepOf p1 p2)) (track p1 p2).
Proof. apply bres_chain. Qed.

Lemma scanPoints_coords (p1 p2 : Point F) (doSmooth : bool) :
  map getCoords (scanPoints p1 p2 doSmooth) = map (place p1 p2) (track p1 p2).
Proof. unfold scanPoints. rewrite map_map. reflexivity. Qed.

Lemma scanPoints_head (p1 p2 : Point F) (doSmooth : bool) :
  exists q t, scanPoints p1 p2 doSmooth = q :: t
              /\ getCoords q = getCoords (lft p1 p2).
Proof.
  unfold scanPoints. destruct (track_head p1 p2) as [t ->].
  cbn [map]. do 2 eexists. split; [reflexivity|]. cbn. apply place_coords.
Qed.

Lemma last_map {A B : Type} (f : A -> B) (l : list A) (d : A) :
  last (map f l) (f d) = f (last l d).
Proof.
  induction l as [|a [|b t] IH]; cbn; auto.
Qed.

Lemma scanPoints_last (p1 p2 : Point F) (doSmooth : bool) (d : Point F) :
  getCoords (last (scanPoints p1 p2 doSmooth) d) = getCoords (rgt p1 p2).
Proof.
  destruct (scanPoints_head p1 p2 doSmooth) as (q & t & Hqt & _).
  assert (Hd : forall d', last (scanPoints p1 p2 doSmooth) d
                          = last (scanPoints p1 p2 doSmooth) d').
  { intros d'. rewrite Hqt. apply last_nonempty. }
  unfold scanPoints in *.
  rewrite (Hd (mkPoint (place p1 p2 (0, 0)) (shade p1 p2 doSmooth 0))).
  rewrite (last_map (fun km => mkPoint (place p1 p2 km)
                                 (shade p1 p2 doSmooth (fst km)))
                    (track p1 p2) (0, 0)).
  cbn [getCoords]. rewrite track_last. apply place_coords.
Qed.

Lemma scanPoints_chain (p1 p2 : Point F) (doSmooth : bool) :
  chain (pixelStep p1 p2) (scanPoints p1 p2 doSmooth).
Proof.
  unfold scanPoints.
  apply chain_map with (R := unitStep (stepOf p1 p2)); [|apply track_chain].
  intros [k m] [k' m'] [Hk Hm]. cbn in Hk, Hm.
  unfold pixelStep, major, minor, place, px, py.
  destruct (shallow p1 p2); cbn; auto.
Qed.

Lemma scanPoints_major (p1 p2 : Point F) (doSmooth : bool) :
  map (major p1 p2) (scanPoints p1 p2 doSmooth)
  = range (major p1 p2 (lft p1 p2)) (major p1 p2 (rgt p1 p2) + 1).
Proof.
  rewrite <- track_fst. unfold scanPoints. rewrite map_map.
  apply map_ext. intros [k m].
  unfold major, place, px, py. destruct (shallow p1 p2); reflexivity.
Qed.

Lemma range_NoDup (lo hi : Z) : NoDup (range lo hi).
Proof.
  unfold range. apply NoDup_map_NoDup_ForallPairs; [|apply seq_NoDup].
  intros a b _ _ Hab. lia.
Qed.

Lemma range_In (lo hi k : Z) : In k (range lo hi) <-> lo <= k < hi.
Proof.
  unfold range. rewrite in_map_iff. split.
  - intros (n & <- & Hn). apply in_seq in Hn. lia.
  - intros Hk. exists (Z.to_nat (k - lo)). split; [lia|]. apply in_seq. lia.
Qed.

End Track.

(** ** Lines *)

Section Lines.

Context {F : Type} `{Channel F}.

Lemma track_dot (p1 p2 : Point F) :
  dMajor p1 p2 = 0 ->
  track p1 p2 = [(major p1 p2 (lft p1 p2), minor p1 p2 (lft p1 p2))].
Proof.
  intros Hz. unfold track.
  rewrite major_rgt, Hz, range_cons, range_nil by lia.
  cbn [bres]. destruct (0 <? _); reflexivity.
Qed.

Lemma drawnPoints_flat (p1 p2 : Point F) :
  drawnPoints p1 p2 false = scanPoints p1 p2 false.
Proof.
  unfold drawnPoints. destruct (Z.eqb_spec (dMajor p1 p2) 0) as [Hz|]; [|reflexivity].
  unfold scanPoints, dotPoint. rewrite (track_dot _ _ Hz). cbn [map fst].
  now rewrite place_coords.
Qed.

Lemma drawnPoints_nonzero (p1 p2 : Point F) (doSmooth : bool) :
  dMajor p1 p2 <> 0 ->
  drawnPoints p1 p2 doSmooth = scanPoints p1 p2 doSmooth.
Proof.
  intros Hnz. unfold drawnPoints.
  destruct (Z.eqb_spec (dMajor p1 p2) 0); [contradiction|reflexivity].
Qed.

(** Whenever the generator returns, [drawLine] draws what it returns. *)
Lemma drawLine_refines (buff : Buff F) (p1 p2 : Point F) (doSmooth : bool)
    (l : list (Point F)) :
  pointsOnLine p1 p2 doSmooth = Ok l ->
  drawLine buff p1 p2 doSmooth = Ok (fold_left drawPoint l buff).
Proof.
  rewrite pointsOnLine_eq, drawLine_eq.
  destruct doSmooth; cbn [andb].
  - destruct (Z.eqb_spec (dMajor p1 p2) 0) as [Hz|Hnz]; [discriminate|].
    intros [= <-]. now rewrite drawnPoints_nonzero.
  - intros [= <-]. now rewrite drawnPoints_flat.
Qed.

Lemma pointsOnLine_raise (p1 p2 : Point F) (doSmooth : bool) (e : exn) :
  pointsOnLine p1 p2 doSmooth = Raise e ->
  e = ZeroDivisionError /\ doSmooth = true /\ getCoords p1 = getCoords p2.
Proof.
  rewrite pointsOnLine_eq.
  destruct doSmooth; cbn [andb]; [|discriminate].
  destruct (Z.eqb_spec (dMajor p1 p2) 0) as [Hz|Hnz]; [|discriminate].
  intros [= <-]. rewrite <- dMajor_zero. auto.
Qed.

Lemma pointsOnLine_zero_smooth (p1 p2 : Point F) :
  getCoords p1 = getCoords p2 ->
  pointsOnLine p1 p2 true = Raise ZeroDivisionError.
Proof.
  intros Heq. rewrite pointsOnLine_eq. apply dMajor_zero in Heq.
  rewrite Heq. reflexivity.
Qed.

Lemma drawLine_zero (buff : Buff F) (p1 p2 : Point F) (doSmooth : bool) :
  getCoords p1 = getCoords p2 ->
  drawLine buff p1 p2 doSmooth = Ok (drawPoint buff (dotPoint p1 p2 doSmooth)).
Proof.
  intros Heq. rewrite drawLine_eq. apply dMajor_zero in Heq.
  unfold drawnPoints. rewrite Heq. reflexivity.
Qed.

Lemma pointsOnLine_ok (p1 p2 : Point F) (doSmooth : bool) :
  doSmooth = false \/ getCoords p1 <> getCoords p2 ->
  pointsOnLine p1 p2 doSmooth = Ok (scanPoints p1 p2 doSmooth).
Proof.
  intros Hsafe. rewrite pointsOnLine_eq.
  destruct Hsafe as [-> | Hne]; [reflexivity|].
  destruct (Z.eqb_spec (dMajor p1 p2) 0) as [Hz|Hnz].
  - apply dMajor_zero in Hz. contradiction.
  - now rewrite andb_false_r.
Qed.

Lemma pointsOnLine_inv (p1 p2 : Point F) (doSmooth : bool) (l : list (Point F)) :
  pointsOnLine p1 p2 doSmooth = Ok l -> l = scanPoints p1 p2 doSmooth.
Proof.
  rewrite pointsOnLine_eq. destruct (_ && _); [discriminate|]. now intros [= <-].
Qed.

Lemma dotPoint_coords (p : Point F) (doSmooth : bool) :
  getCoords (dotPoint p p doSmooth) = getCoords p.
Proof.
  unfold dotPoint. cbn [getCoords].
  destruct (lft_rgt_cases p p) as [[-> _]|[-> _]]; reflexivity.
Qed.

Lemma scanPoints_flat_color (p1 p2 : Point F) :
  Forall (fun q => getColor q = getColor p1) (scanPoints p1 p2 false).
Proof.
  unfold scanPoints. apply Forall_forall. intros q Hq.
  apply in_map_iff in Hq as (km & <- & _). reflexivity.
Qed.

End Lines.

(** ** Sequences that move in [y] by unit steps *)

Section YPath.

Context {F : Type} `{Channel F}.

Lemma ypath_tail (d : Z) (q : Point F) (t : list (Point F)) :
  ypath d (q :: t) -> ypath d t.
Proof. unfold ypath. destruct t as [|b t]; cbn; tauto. Qed.

Lemma ypath_suffix (d : Z) (pre l : list (Point F)) :
  ypath d (pre ++ l) -> ypath d l.
Proof.
  induction pre as [|a pre IH]; [auto|].
  intros Hp. apply IH. now apply ypath_tail with (q := a).
Qed.

Lemma ypath_rev (d : Z) (l : list (Point F)) :
  ypath d l -> ypath (- d) (rev l).
Proof.
  intros Hl. apply chain_rev in Hl. unfold ypath.
  eapply chain_weaken; [|exact Hl]. cbn. intros a b. lia.
Qed.

(** Every later point lies on the [d] side of the first one. *)
Lemma ypath_ahead (d : Z) (t : list (Point F)) :
  d = 1 \/ d = -1 ->
  forall q, ypath d (q :: t) ->
  forall x, In x t -> 0 <= d * (py x - py q).
Proof.
  intros Hd. induction t as [|b t IH]; intros q Hp x Hx; [contradiction|].
  destruct Hp as [Hqb Hp]. fold (ypath d (b :: t)) in Hp.
  destruct Hx as [<-|Hx].
  - destruct Hd as [-> | ->]; lia.
  - specialize (IH b Hp x Hx). destruct Hd as [-> | ->]; lia.
Qed.

(** Every level between the first and the last [y] is visited. *)
Lemma ypath_reach (d y : Z) (t : list (Point F)) :
  d = 1 \/ d = -1 ->
  forall q, ypath d (q :: t) ->
  0 <= d * (y - py q) ->
  0 <= d * (py (last (q :: t) q) - y) ->
  exists x, In x (q :: t) /\ py x = y.
Proof.
  intros Hd. induction t as [|b t IH]; intros q Hp Hlo Hhi.
  - exists q. split; [now left|]. cbn in Hhi. destruct Hd as [-> | ->]; lia.
  - destruct (Z.eq_dec (py q) y) as [Heq|Hne].
    + exists q. split; [now left | exact Heq].
    + destruct Hp as [Hqb Hp]. fold (ypath d (b :: t)) in Hp.
      destruct (IH b Hp) as (x & Hx & Hy).
      * destruct Hd as [-> | ->]; lia.
      * rewrite <- last_cons_cons with (a := q). exact Hhi.
      * exists x. split; [now right | exact Hy].
Qed.

(** After a run ends its level does not come back. *)
Lemma ypath_left_behind (d : Z) (q : Point F) (post : list (Point F)) :
  d = 1 \/ d = -1 ->
  ypath d (q :: post) ->
  sameYNext q post = false ->
  forall x, In x post -> py x <> py q.
Proof.
  intros Hd Hp Hnext x Hx.
  destruct post as [|b t]; [contradiction|].
  cbn in Hnext. apply Z.eqb_neq in Hnext.
  destruct Hp as [Hqb Hp]. fold (ypath d (b :: t)) in Hp.
  destruct Hx as [<-|Hx]; [lia|].
  pose proof (ypath_ahead d t Hd b Hp x Hx).
  destruct Hd as [-> | ->]; lia.
Qed.



Lemma runEnds_cons (q b : Point F) (t : list (Point F)) :
  runEnds (q :: b :: t)
  = if py q =? py b then runEnds (b :: t) else q :: runEnds (b :: t).
Proof. reflexivity. Qed.

(** The run ends of a unit-step sequence visit consecutive levels. *)
Lemma runEnds_levels (d : Z) (t : list (Point F)) :
  d = 1 \/ d = -1 ->
  forall q, ypath d (q :: t) ->
  exists n, map py (runEnds (q :: t)) = zrun (py q) d (S n)
            /\ py (last (q :: t) q) = py q + d * Z.of_nat n.
Proof.
  intros Hd. induction t as [|b t IH]; intros q Hp.
  - exists 0%nat. cbn. split; [reflexivity|lia].
  - destruct Hp as [Hqb Hp]. fold (ypath d (b :: t)) in Hp.
    destruct (IH b Hp) as (n & Hlev & Hlast).
    rewrite last_cons_cons, runEnds_cons.
    destruct (Z.eqb_spec (py q) (py b)) as [Heq|Hne].
    + exists n. rewrite Heq. auto.
    + exists (S n). cbn [map]. rewrite Hlev.
      assert (Hb : py b = py q + d) by lia.
      rewrite Hlast, Hb. split; [reflexivity|lia].
Qed.

Lemma runEnds_same_levels (d1 d2 : Z) (q1 q2 : Point F) (t1 t2 : list (Point F)) :
  d1 = 1 \/ d1 = -1 -> d2 = 1 \/ d2 = -1 ->
  ypath d1 (q1 :: t1) -> ypath d2 (q2 :: t2) ->
  py q1 = py q2 ->
  py (last (q1 :: t1) q1) = py (last (q2 :: t2) q2) ->
  map py (runEnds (q1 :: t1)) = map py (runEnds (q2 :: t2)).
Proof.
  intros Hd1 Hd2 Hp1 Hp2 Hq Hl.
  destruct (runEnds_levels d1 t1 Hd1 q1 Hp1) as (n1 & -> & Hl1).
  destruct (runEnds_levels d2 t2 Hd2 q2 Hp2) as (n2 & -> & Hl2).
  rewrite Hq.
  destruct (Z.eq_dec d1 d2) as [->|Hne].
  - replace n2 with n1; [reflexivity|]. destruct Hd2 as [-> | ->]; lia.
  - assert (n1 = 0%nat /\ n2 = 0%nat) as [-> ->]
      by (destruct Hd1 as [-> | ->], Hd2 as [-> | ->]; lia).
    reflexivity.
Qed.

End YPath.

(** ** The two edges of the walk *)

Section Edges.

Context {F : Type} `{Channel F}.

Lemma py_coords (p q : Point F) : getCoords p = getCoords q -> py p = py q.
Proof. unfold py. now intros ->. Qed.

Lemma scanPoints_ypath (p1 p2 : Point F) (doSmooth : bool) :
  exists d, (d = 1 \/ d = -1) /\ ypath d (scanPoints p1 p2 doSmooth).
Proof.
  pose proof (scanPoints_chain p1 p2 doSmooth) as Hc.
  unfold pixelStep, major, minor in Hc.
  destruct (shallow p1 p2).
  - exists (stepOf p1 p2). split; [apply stepOf_unit|].
    eapply chain_weaken; [|exact Hc]. cbn. tauto.
  - exists 1. split; [now left|].
    eapply chain_weaken; [|exact Hc]. cbn. tauto.
Qed.

Lemma rev_head_last {A : Type} (q : A) (t : list A) :
  exists t', rev (q :: t) = last (q :: t) q :: t'
             /\ last (last (q :: t) q :: t') q = q.
Proof.
  assert (Hne : q :: t <> []) by discriminate.
  pose proof (app_removelast_last q Hne) as Hsplit.
  exists (rev (removelast (q :: t))). split.
  - rewrite Hsplit at 1. now rewrite rev_unit.
  - rewrite <- (rev_unit (removelast (q :: t)) (last (q :: t) q)), <- Hsplit.
    cbn [rev]. apply last_last.
Qed.

(** The ends of a generated edge, as a pair of levels. *)
Lemma scanPoints_ends (p1 p2 : Point F) (doSmooth : bool) :
  exists q t, scanPoints p1 p2 doSmooth = q :: t
    /\ ((py q = py p1 /\ py (last (q :: t) q) = py p2)
        \/ (py q = py p2 /\ py (last (q :: t) q) = py p1)).
Proof.
  destruct (scanPoints_head p1 p2 doSmooth) as (q & t & Hqt & Hq).
  exists q, t. split; [exact Hqt|].
  pose proof (scanPoints_last p1 p2 doSmooth q) as Hl. rewrite Hqt in Hl.
  apply py_coords in Hq, Hl.
  destruct (lft_rgt_cases p1 p2) as [[Ha Hb]|[Ha Hb]];
    rewrite Ha in Hq; rewrite Hb in Hl; auto.
Qed.

(** After the alignment both edges start on one level and end on one
    level, and each moves in [y] by unit steps. *)
Lemma edges_aligned (v1 v2 v3 : Point F) (doSmooth : bool)
    (line1 line2 : list (Point F)) :
  py v1 = py v2 ->
  edges v1 v2 v3 doSmooth = Ok (line1, line2) ->
  exists d1 d2 q1 t1 q2 t2,
    line1 = q1 :: t1 /\ line2 = q2 :: t2
    /\ (d1 = 1 \/ d1 = -1) /\ (d2 = 1 \/ d2 = -1)
    /\ ypath d1 line1 /\ ypath d2 line2
    /\ py q1 = py q2
    /\ py (last line1 q1) = py (last line2 q2).
Proof.
  intros Hflat. unfold edges.
  destruct (pointsOnLine v3 v1 doSmooth) as [l1|] eqn:E1; [|discriminate].
  destruct (pointsOnLine v3 v2 doSmooth) as [l2|] eqn:E2; [|discriminate].
  apply pointsOnLine_inv in E1, E2. cbn [bind].
  destruct (scanPoints_ends v3 v1 doSmooth) as (q1 & t1 & Hl1 & Hends1).
  destruct (scanPoints_ends v3 v2 doSmooth) as (q2 & t2 & Hl2 & Hends2).
  destruct (scanPoints_ypath v3 v1 doSmooth) as (d1 & Hd1 & Hp1).
  destruct (scanPoints_ypath v3 v2 doSmooth) as (d2 & Hd2 & Hp2).
  subst l1 l2. rewrite Hl1, Hl2 in *. cbn [item0 bind].
  destruct (Z.eqb_spec (py q1) (py q2)) as [Heq|Hne]; cbn [negb].
  - intros [= <- <-].
    exists d1, d2, q1, t1, q2, t2. repeat split; auto. lia.
  - destruct (rev_head_last q2 t2) as (t' & Hrev & Hlast).
    intros [= <- <-]. change (rev t2 ++ [q2]) with (rev (q2 :: t2)).
    rewrite Hrev.
    exists d1, (- d2), q1, t1, (last (q2 :: t2) q2), t'.
    repeat split; auto.
    + lia.
    + rewrite <- Hrev. now apply ypath_rev.
    + lia.
    + rewrite (last_nonempty _ t' _ q2), Hlast. lia.
Qed.

End Edges.

(** ** The dual-edge walk *)

Section Walk.

Context {F : Type} `{Channel F}.

Lemma scanEvents_step (a b : Point F) (line1' line2' : list (Point F)) :
  scanEvents (a :: line1') (b :: line2')
  = if sameYNext a line1'
    then PlotPoint a :: scanEvents line1' (b :: line2')
    else if sameYNext b line2'
    then PlotPoint b :: scanEvents (a :: line1') line2'
    else FillLine a b :: scanEvents line1' line2'.
Proof. reflexivity. Qed.

Lemma scanFill_step (buff : Buff F) (a b : Point F)
    (line1' line2' : list (Point F)) :
  scanFill buff (a :: line1') (b :: line2')
  = if sameYNext a line1'
    then scanFill (drawPoint buff a) line1' (b :: line2')
    else if sameYNext b line2'
    then scanFill (drawPoint buff b) (a :: line1') line2'
    else buff' <- drawLine buff a b true ;; scanFill buff' line1' line2'.
Proof. reflexivity. Qed.

Lemma scanEvents_nil_r (line1 : list (Point F)) : scanEvents line1 [] = [].
Proof. destruct line1; reflexivity. Qed.

Lemma scanFill_nil_r (buff : Buff F) (line1 : list (Point F)) :
  scanFill buff line1 [] = Ok buff.
Proof. destruct line1; reflexivity. Qed.

(** The walk performs the commands [scanEvents] lists, in that order. *)
Lemma scanFill_events (line1 : list (Point F)) :
  forall line2 buff,
    scanFill buff line1 line2 = runEvents buff (scanEvents line1 line2).
Proof.
  induction line1 as [|a line1' IH1]; intros line2; [reflexivity|].
  induction line2 as [|b line2' IH2]; intros buff; [reflexivity|].
  rewrite scanFill_step, scanEvents_step.
  destruct (sameYNext a line1'); [apply IH1|].
  destruct (sameYNext b line2'); [apply IH2|].
  cbn [runEvents]. destruct (drawLine buff a b true); cbn [bind]; [apply IH1|reflexivity].
Qed.

(** The filling lines join the run ends of the two edges, pairwise. *)
Lemma fills_scanEvents (line1 : list (Point F)) :
  forall line2,
    fills (scanEvents line1 line2) = combine (runEnds line1) (runEnds line2).
Proof.
  induction line1 as [|a line1' IH1]; intros line2; [reflexivity|].
  induction line2 as [|b line2' IH2].
  - rewrite scanEvents_nil_r. symmetry. apply combine_nil.
  - rewrite scanEvents_step. cbn [runEnds] in *.
    destruct (sameYNext a line1'); cbn [fills].
    + rewrite IH1. reflexivity.
    + destruct (sameYNext b line2'); cbn [fills].
      * exact IH2.
      * rewrite IH1. reflexivity.
Qed.

(** A point is plotted alone only when the next point of its edge has the
    same [y]. *)
Lemma plots_scanEvents (line1 : list (Point F)) :
  forall line2 q,
    In q (plots (scanEvents line1 line2)) ->
    exists pre post,
      (line1 = pre ++ q :: post \/ line2 = pre ++ q :: post)
      /\ sameYNext q post = true.
Proof.
  induction line1 as [|a line1' IH1]; intros line2; [contradiction|].
  induction line2 as [|b line2' IH2]; intros q.
  - rewrite scanEvents_nil_r. contradiction.
  - rewrite scanEvents_step.
    destruct (sameYNext a line1') eqn:Ea; cbn [plots].
    + intros [<-|Hq].
      * exists [], line1'. split; [now left|exact Ea].
      * destruct (IH1 _ _ Hq) as (pre & post & [->| ->] & Hs).
        -- exists (a :: pre), post. split; [now left|exact Hs].
        -- exists pre, post. split; [now right|exact Hs].
    + destruct (sameYNext b line2') eqn:Eb; cbn [plots].
      * intros [<-|Hq].
        -- exists [], line2'. split; [now right|exact Eb].
        -- destruct (IH2 _ Hq) as (pre & post & [Hl| ->] & Hs).
           ++ exists pre, post. split; [now left|exact Hs].
           ++ exists (b :: pre), post. split; [now right|exact Hs].
      * intros Hq.
        destruct (IH1 _ _ Hq) as (pre & post & [->| ->] & Hs).
        -- exists (a :: pre), post. split; [now left|exact Hs].
        -- exists (b :: pre), post. split; [now right|exact Hs].
Qed.


Lemma runInner_In (line : list (Point F)) (q : Point F) :
  In q (runInner line) <->
  exists pre post, line = pre ++ q :: post /\ sameYNext q post = true.
Proof.
  induction line as [|a t IH].
  - split; [contradiction|]. intros (pre & post & Hl & _).
    now destruct pre.
  - cbn [runInner]. split.
    + destruct (sameYNext a t) eqn:Ea.
      * intros [<-|Hq]; [exists [], t; auto|].
        apply IH in Hq as (pre & post & -> & Hs). exists (a :: pre), post. auto.
      * intros Hq. apply IH in Hq as (pre & post & -> & Hs).
        exists (a :: pre), post. auto.
    + intros (pre & post & Hl & Hs). destruct pre as [|a' pre].
      * cbn in Hl. injection Hl as <- <-. rewrite Hs. now left.
      * cbn in Hl. injection Hl as <- ->.
        assert (Hin : In q (runInner (pre ++ q :: post)))
          by (apply IH; eauto).
        destruct (sameYNext a (pre ++ q :: post)); [now right|exact Hin].
Qed.

Lemma runEnds_nonempty (q : Point F) (t : list (Point F)) :
  runEnds (q :: t) <> [].
Proof.
  revert q. induction t as [|b t IH]; intros q; [discriminate|].
  rewrite runEnds_cons. destruct (py q =? py b); [apply IH|discriminate].
Qed.


Lemma runEvents_total (evs : list Event) :
  forall buff, exists buff', runEvents buff evs = Ok buff'.
Proof.
  induction evs as [|[q|a b] evs IH]; intros buff; cbn [runEvents].
  - eexists. reflexivity.
  - apply IH.
  - rewrite drawLine_eq. cbn [bind]. apply IH.
Qed.

Lemma fillFlat_edges (buff : Buff F) (v1 v2 v3 : Point F) (doSmooth : bool) :
  fillFlat buff v1 v2 v3 doSmooth
  = e <- edges v1 v2 v3 doSmooth ;;
    runEvents buff (scanEvents (fst e) (snd e)).
Proof.
  unfold fillFlat, edges.
  destruct (pointsOnLine v3 v1 doSmooth) as [l1|]; [|reflexivity].
  destruct (pointsOnLine v3 v2 doSmooth) as [l2|]; [|reflexivity].
  cbn [bind]. destruct (item0 l1); [|reflexivity].
  cbn [bind]. destruct (item0 l2); [|reflexivity].
  cbn [bind fst snd]. apply scanFill_events.
Qed.

Lemma edges_ok (v1 v2 v3 : Point F) (doSmooth : bool) :
  doSmooth = false
  \/ (getCoords v3 <> getCoords v1 /\ getCoords v3 <> getCoords v2) ->
  exists line1 line2, edges v1 v2 v3 doSmooth = Ok (line1, line2).
Proof.
  intros Hsafe. unfold edges.
  rewrite !pointsOnLine_ok by tauto. cbn [bind].
  destruct (scanPoints_head v3 v1 doSmooth) as (q1 & t1 & -> & _).
  destruct (scanPoints_head v3 v2 doSmooth) as (q2 & t2 & -> & _).
  cbn [item0 bind]. do 2 eexists. reflexivity.
Qed.

Lemma fillFlat_ok (buff : Buff F) (v1 v2 v3 : Point F) (doSmooth : bool) :
  doSmooth = false
  \/ (getCoords v3 <> getCoords v1 /\ getCoords v3 <> getCoords v2) ->
  exists buff', fillFlat buff v1 v2 v3 doSmooth = Ok buff'.
Proof.
  intros Hsafe. rewrite fillFlat_edges.
  destruct (edges_ok v1 v2 v3 doSmooth Hsafe) as (l1 & l2 & ->).
  cbn [bind]. apply runEvents_total.
Qed.

Lemma fillFlat_raise (buff : Buff F) (v1 v2 v3 : Point F) :
  getCoords v3 = getCoords v1 \/ getCoords v3 = getCoords v2 ->
  fillFlat buff v1 v2 v3 true = Raise ZeroDivisionError.
Proof.
  intros Hz. unfold fillFlat.
  destruct (pointsOnLine v3 v1 true) as [l1|e] eqn:E1; cbn [bind].
  - destruct Hz as [Hz|Hz].
    + rewrite pointsOnLine_zero_smooth in E1 by exact Hz. discriminate.
    + now rewrite pointsOnLine_zero_smooth by exact Hz.
  - apply pointsOnLine_raise in E1 as [-> _]. reflexivity.
Qed.

End Walk.

Section WalkLevels.

Context {F : Type} `{Channel F}.

Lemma combine_same_image {A B : Type} (f : A -> B) (la lb : list A) :
  map f la = map f lb ->
  map fst (combine la lb) = la
  /\ forall a b, In (a, b) (combine la lb) -> f a = f b.
Proof.
  revert lb. induction la as [|x la IH]; intros [|y lb] Hmap;
    cbn in Hmap; try discriminate.
  - split; [reflexivity|contradiction].
  - injection Hmap as Hxy Hmap. destruct (IH lb Hmap) as [Hfst Hin].
    cbn [combine map fst]. split; [now rewrite Hfst|].
    intros a b [[= <- <-]|Hab]; auto.
Qed.

End WalkLevels.

(** ** Triangles *)

Section Triangles.

Context {F : Type} `{Channel F}.

Lemma py_recolor (doSmooth : bool) (p1 q : Point F) :
  py (recolor doSmooth p1 q) = py q.
Proof. unfold recolor. destruct doSmooth; reflexivity. Qed.

Lemma coords_recolor (doSmooth : bool) (p1 q : Point F) :
  getCoords (recolor doSmooth p1 q) = getCoords q.
Proof. unfold recolor. destruct doSmooth; reflexivity. Qed.

(** One call of [drawTriangle], by the branch it takes. *)
Lemma drawTriangle_unfold (depth : nat) (buff : Buff F) (p1 p2 p3 : Point F)
    (doSmooth : bool) :
  drawTriangle (S depth) buff p1 p2 p3 doSmooth
  = match flatChoice p1 (recolor doSmooth p1 p2) (recolor doSmooth p1 p3) with
    | Some (v1, v2, v3) => fillFlat buff v1 v2 v3 doSmooth
    | None =>
        match splitChoice p1 (recolor doSmooth p1 p2) (recolor doSmooth p1 p3) with
        | Some (a, b, y, (u1, u2), (w1, w2)) =>
            line <- pointsOnLine a b true ;;
            s <- splitSearch line y ;;
            buff <- drawTriangle depth buff u1 u2 s doSmooth ;;
            drawTriangle depth buff w1 w2 s doSmooth
        | None => Raise UnboundLocalError
        end
    end.
Proof.
  cbn [drawTriangle]. unfold flatChoice, splitChoice.
  rewrite !py_recolor. fold (recolor doSmooth p1 p2) (recolor doSmooth p1 p3).
  destruct (py p1 =? py p2); [reflexivity|].
  destruct (py p2 =? py p3); [reflexivity|].
  destruct (py p3 =? py p1); [reflexivity|].
  destruct (between (py p1) (py p2) (py p3)); [reflexivity|].
  destruct (between (py p2) (py p1) (py p3)); [reflexivity|].
  destruct (between (py p3) (py p1) (py p2)); reflexivity.
Qed.

(** The search stops on a point of level [y] whose successor, if any, has
    another level. *)
Lemma splitSearch_found (y : Z) (line : list (Point F)) :
  (exists x, In x line /\ py x = y) ->
  exists pre s post,
    line = pre ++ s :: post
    /\ splitSearch line y = Ok s
    /\ py s = y
    /\ sameYNext s post = false.
Proof.
  induction line as [|q rest IH]; intros (x & Hx & Hy); [contradiction|].
  destruct rest as [|q' r].
  - destruct Hx as [<-|[]]. exists [], q, []. cbn.
    apply Z.eqb_eq in Hy. rewrite Hy. apply Z.eqb_eq in Hy. auto.
  - cbn [splitSearch].
    destruct (Z.eqb_spec (py q) (py q')) as [Hsame|Hdiff].
    + destruct IH as (pre & s & post & Hl & Hs & Hys & Hn).
      { destruct Hx as [<-|Hx]; [exists q'; split; [now left|lia]|eauto]. }
      exists (q :: pre), s, post. rewrite Hl. auto.
    + destruct (Z.eqb_spec (py q) y) as [Hq|Hq].
      * exists [], q, (q' :: r). cbn. repeat split; auto.
        now apply Z.eqb_neq.
      * destruct IH as (pre & s & post & Hl & Hs & Hys & Hn).
        { destruct Hx as [<-|Hx]; [contradiction|eauto]. }
        exists (q :: pre), s, post. rewrite Hl. auto.
Qed.

(** A triangle with a flat pair and the third vertex on another level is
    drawn without a nested call. *)
Lemma drawTriangle_two_levels (depth : nat) (buff : Buff F)
    (p1 p2 p3 : Point F) (doSmooth : bool) :
  (py p1 = py p2 /\ py p3 <> py p1)
  \/ (py p2 = py p3 /\ py p1 <> py p2)
  \/ (py p3 = py p1 /\ py p2 <> py p1) ->
  exists buff', drawTriangle (S depth) buff p1 p2 p3 doSmooth = Ok buff'.
Proof.
  intros Hlev. rewrite drawTriangle_unfold. unfold flatChoice.
  rewrite !py_recolor.
  assert (Hne : forall a b : Point F, py a <> py b -> getCoords a <> getCoords b).
  { intros a b Hab Heq. apply Hab. now apply py_coords. }
  destruct (Z.eqb_spec (py p1) (py p2));
    [|destruct (Z.eqb_spec (py p2) (py p3));
      [|destruct (Z.eqb_spec (py p3) (py p1)); [|exfalso; lia]]];
    apply fillFlat_ok; right; rewrite ?coords_recolor;
    split; apply Hne; rewrite ?py_recolor; lia.
Qed.

Lemma drawTriangle_flat_depth (depth : nat) (buff : Buff F)
    (p1 p2 p3 : Point F) (doSmooth : bool) :
  py p1 = py p2 \/ py p2 = py p3 \/ py p3 = py p1 ->
  drawTriangle (S depth) buff p1 p2 p3 doSmooth
  = drawTriangle 1 buff p1 p2 p3 doSmooth.
Proof.
  intros Hflat. rewrite !drawTriangle_unfold. unfold flatChoice.
  rewrite !py_recolor.
  destruct (Z.eqb_spec (py p1) (py p2)); [reflexivity|].
  destruct (Z.eqb_spec (py p2) (py p3)); [reflexivity|].
  destruct (Z.eqb_spec (py p3) (py p1)); [reflexivity|lia].
Qed.

End Triangles.

Section Split.

Context {F : Type} `{Channel F}.

(** An edge between two levels passes through every level in between. *)
Lemma edge_reaches (a b : Point F) (y : Z) :
  between y (py a) (py b) = true ->
  exists line d,
    pointsOnLine a b true = Ok line
    /\ (d = 1 \/ d = -1) /\ ypath d line
    /\ exists x, In x line /\ py x = y.
Proof.
  intros Hbtw.
  assert (Hy : py a < y < py b \/ py b < y < py a).
  { unfold between in Hbtw.
    apply orb_prop in Hbtw as [Hb|Hb]; apply andb_prop in Hb as [H1 H2];
      apply Z.ltb_lt in H1, H2; lia. }
  assert (Hne : getCoords a <> getCoords b).
  { intros Heq. apply py_coords in Heq. lia. }
  exists (scanPoints a b true).
  destruct (scanPoints_ypath a b true) as (d & Hd & Hp).
  exists d. split; [apply pointsOnLine_ok; now right|].
  split; [exact Hd|]. split; [exact Hp|].
  destruct (scanPoints_ends a b true) as (q & t & Hqt & Hends).
  rewrite Hqt in *.
  destruct (runEnds_levels d t Hd q Hp) as (n & _ & Hlast).
  apply (ypath_reach d y t Hd q Hp); destruct Hd as [-> | ->]; lia.
Qed.

(** C4: when the three [y] are pairwise different, [drawTriangle] takes a
    split branch; the edge opposite the middle vertex is generated and has
    a point on the middle level; the search returns the last point of that
    level; each of the two nested calls gets the split point together with
    the middle vertex, which lie on one level, and returns at depth one;
    so the whole call returns with one level of nesting. *)
Theorem split_search_terminates (depth : nat) (buff : Buff F)
    (p1 p2 p3 : Point F) (doSmooth : bool) :
  py p1 <> py p2 -> py p2 <> py p3 -> py p3 <> py p1 ->
  exists a b y u1 u2 w1 w2 line pre s post buff1 buff2,
    splitChoice p1 (recolor doSmooth p1 p2) (recolor doSmooth p1 p3)
    = Some (a, b, y, (u1, u2), (w1, w2))
    /\ between y (py a) (py b) = true
    /\ pointsOnLine a b true = Ok line
    /\ line = pre ++ s :: post
    /\ py s = y
    /\ (forall x, In x post -> py x <> y)
    /\ splitSearch line y = Ok s
    /\ (py u1 = py s \/ py u2 = py s)
    /\ (py w1 = py s \/ py w2 = py s)
    /\ drawTriangle 1 buff u1 u2 s doSmooth = Ok buff1
    /\ drawTriangle 1 buff1 w1 w2 s doSmooth = Ok buff2
    /\ drawTriangle (S (S depth)) buff p1 p2 p3 doSmooth = Ok buff2.
Proof.
  intros H12 H23 H31.
  pose proof (drawTriangle_unfold (S depth) buff p1 p2 p3 doSmooth) as Hun.
  unfold flatChoice in Hun. rewrite !py_recolor in Hun.
  destruct (Z.eqb_spec (py p1) (py p2)); [contradiction|].
  destruct (Z.eqb_spec (py p2) (py p3)); [contradiction|].
  destruct (Z.eqb_spec (py p3) (py p1)); [contradiction|].
  destruct (splitChoice p1 (recolor doSmooth p1 p2) (recolor doSmooth p1 p3))
    as [[[[[a b] y] [u1 u2]] [w1 w2]]|] eqn:Hchoice.
  2:{ exfalso. unfold splitChoice, between in Hchoice.
      rewrite !py_recolor in Hchoice.
      destruct (Z.ltb_spec (py p2) (py p1)), (Z.ltb_spec (py p1) (py p3)),
        (Z.ltb_spec (py p1) (py p2)), (Z.ltb_spec (py p3) (py p1)),
        (Z.ltb_spec (py p2) (py p3)), (Z.ltb_spec (py p3) (py p2));
        cbn in Hchoice; try discriminate; lia. }
  assert (Hfacts : between y (py a) (py b) = true
                   /\ ((py u1 = y /\ py u2 <> y) \/ (py u2 = y /\ py u1 <> y))
                   /\ ((py w1 = y /\ py w2 <> y) \/ (py w2 = y /\ py w1 <> y))).
  { unfold splitChoice in Hchoice. rewrite !py_recolor in Hchoice.
    destruct (between (py p1) (py p2) (py p3)) eqn:B1;
      [|destruct (between (py p2) (py p1) (py p3)) eqn:B2;
        [|destruct (between (py p3) (py p1) (py p2)) eqn:B3; [|discriminate]]];
      injection Hchoice as <- <- <- <- <- <- <-;
      rewrite ?py_recolor; repeat split; auto; lia. }
  destruct Hfacts as (Hbtw & Hu & Hw).
  destruct (edge_reaches a b y Hbtw) as (line & d & Hline & Hd & Hp & Hx).
  destruct (splitSearch_found y line Hx) as (pre & s & post & Hl & Hs & Hys & Hn).
  assert (Hpost : forall x, In x post -> py x <> y).
  { rewrite <- Hys. apply (ypath_left_behind d s post Hd); [|exact Hn].
    apply ypath_suffix with (pre := pre). now rewrite <- Hl. }
  destruct (drawTriangle_two_levels 0 buff u1 u2 s doSmooth) as (buff1 & Hb1);
    [lia|].
  destruct (drawTriangle_two_levels 0 buff1 w1 w2 s doSmooth) as (buff2 & Hb2);
    [lia|].
  exists a, b, y, u1, u2, w1, w2, line, pre, s, post, buff1, buff2.
  repeat split; auto; try lia.
  rewrite Hun, Hline. cbn [bind]. rewrite Hs. cbn [bind].
  destruct depth as [|depth].
  - rewrite Hb1. cbn [bind]. exact Hb2.
  - rewrite (drawTriangle_flat_depth (S depth)), Hb1 by lia. cbn [bind].
    rewrite (drawTriangle_flat_depth (S depth)) by lia. exact Hb2.
Qed.

End Split.

(** ** The scan-point generator and the line rasterizer *)

Section LineClaims.

Context {F : Type} `{Channel F}.

(** C1: whenever [pointsOnLine] returns a list, [drawLine] hands exactly
    that list to [drawPoint], in order, and writes nothing else; the two
    differ only where [pointsOnLine] raises, a smooth segment of length zero:
    there [drawLine] still writes one pixel. *)
Theorem drawLine_against_pointsOnLine (buff : Buff F) (p1 p2 : Point F)
    (doSmooth : bool) :
  match pointsOnLine p1 p2 doSmooth with
  | Ok l => drawLine buff p1 p2 doSmooth = Ok (fold_left drawPoint l buff)
  | Raise e =>
      e = ZeroDivisionError /\ doSmooth = true
      /\ getCoords p1 = getCoords p2
      /\ drawLine buff p1 p2 doSmooth
         = Ok (drawPoint buff (dotPoint p1 p2 doSmooth))
  end
  /\ pointsOnLine p1 p1 true = Raise ZeroDivisionError
  /\ drawLine buff p1 p1 true = Ok (drawPoint buff (dotPoint p1 p1 true)).
Proof.
  split; [|split].
  - destruct (pointsOnLine p1 p2 doSmooth) as [l|e] eqn:E.
    + now apply drawLine_refines.
    + apply pointsOnLine_raise in E as (He & Hs & Hc).
      repeat split; auto. now apply drawLine_zero.
  - now apply pointsOnLine_zero_smooth.
  - now apply drawLine_zero.
Qed.

(** C2: on a segment of length zero, [pointsOnLine] in flat mode returns the
    one point, [drawLine] in either mode writes one pixel at that
    coordinate, and [pointsOnLine] in smooth mode raises
    [ZeroDivisionError]. *)
Theorem zero_length_segment (buff : Buff F) (p : Point F) :
  pointsOnLine p p false = Ok [p]
  /\ pointsOnLine p p true = Raise ZeroDivisionError
  /\ forall doSmooth,
       drawLine buff p p doSmooth
       = Ok (drawPoint buff (dotPoint p p doSmooth))
       /\ getCoords (dotPoint p p doSmooth) = getCoords p.
Proof.
  split; [|split].
  - rewrite pointsOnLine_ok by now left.
    unfold scanPoints. rewrite track_dot by now apply dMajor_zero.
    cbn [map fst]. rewrite place_coords.
    destruct (lft_rgt_cases p p) as [[-> _]|[-> _]]; now destruct p.
  - now apply pointsOnLine_zero_smooth.
  - intros doSmooth. split; [now apply drawLine_zero|apply dotPoint_coords].
Qed.

(** C7: in flat mode the generator returns, every point it returns has the
    colour of [p1], the first endpoint of the call, whichever endpoint the
    loop starts from, and [drawLine] writes exactly these points. *)
Theorem flat_shading_anchor (buff : Buff F) (p1 p2 : Point F) :
  exists l,
    pointsOnLine p1 p2 false = Ok l
    /\ Forall (fun q => getColor q = getColor p1) l
    /\ drawLine buff p1 p2 false = Ok (fold_left drawPoint l buff).
Proof.
  exists (scanPoints p1 p2 false).
  assert (Hok : pointsOnLine p1 p2 false = Ok (scanPoints p1 p2 false))
    by (apply pointsOnLine_ok; now left).
  split; [exact Hok|]. split; [apply scanPoints_flat_color|].
  now apply drawLine_refines.
Qed.

(** C8: in the sequence generated for a shallow segment every point has the
    [x] of its predecessor plus one, and its [y] is the predecessor's or the
    predecessor's moved by the fixed step [stepOf], which is [1] or [-1]; no
    [x] occurs twice. For a steep segment the same holds with [x] and [y]
    exchanged. *)
Theorem dominant_axis_unit_steps (p1 p2 : Point F) (doSmooth : bool)
    (l : list (Point F)) :
  pointsOnLine p1 p2 doSmooth = Ok l ->
  (shallow p1 p2 = true ->
     chain (fun a b => px b = px a + 1
                       /\ (py b = py a \/ py b = py a + stepOf p1 p2)) l
     /\ NoDup (map px l))
  /\ (shallow p1 p2 = false ->
        chain (fun a b => py b = py a + 1
                          /\ (px b = px a \/ px b = px a + stepOf p1 p2)) l
        /\ NoDup (map py l))
  /\ (stepOf p1 p2 = 1 \/ stepOf p1 p2 = -1).
Proof.
  intros Hl. apply pointsOnLine_inv in Hl. subst l.
  pose proof (scanPoints_chain p1 p2 doSmooth) as Hc.
  pose proof (scanPoints_major p1 p2 doSmooth) as Hm.
  unfold pixelStep, major, minor in Hc, Hm.
  split; [|split; [|apply stepOf_unit]]; intros Hsh; rewrite Hsh in Hc, Hm.
  - split; [exact Hc|]. replace (map px (scanPoints p1 p2 doSmooth)) with
      (range (px (lft p1 p2)) (px (rgt p1 p2) + 1)) by (now rewrite <- Hm).
    apply range_NoDup.
  - split; [exact Hc|]. replace (map py (scanPoints p1 p2 doSmooth)) with
      (range (py (lft p1 p2)) (py (rgt p1 p2) + 1)) by (now rewrite <- Hm).
    apply range_NoDup.
Qed.


End LineClaims.

(** ** The triangle rasterizer *)

Section TriangleClaims.

Context {F : Type} `{Channel F}.

Lemma flatChoice_flat (p1 p2 p3 v1 v2 v3 : Point F) :
  flatChoice p1 p2 p3 = Some (v1, v2, v3) -> py v1 = py v2.
Proof.
  unfold flatChoice.
  destruct (Z.eqb_spec (py p1) (py p2)); [now intros [= <- <- <-]|].
  destruct (Z.eqb_spec (py p2) (py p3)); [now intros [= <- <- <-]|].
  destruct (Z.eqb_spec (py p3) (py p1)); [now intros [= <- <- <-]|discriminate].
Qed.

Lemma flatChoice_members (p1 p2 p3 v1 v2 v3 : Point F) :
  flatChoice p1 p2 p3 = Some (v1, v2, v3) ->
  (v1 = p1 \/ v1 = p2 \/ v1 = p3)
  /\ (v2 = p1 \/ v2 = p2 \/ v2 = p3)
  /\ (v3 = p1 \/ v3 = p2 \/ v3 = p3).
Proof.
  unfold flatChoice.
  destruct (py p1 =? py p2); [intros [= <- <- <-]; tauto|].
  destruct (py p2 =? py p3); [intros [= <- <- <-]; tauto|].
  destruct (py p3 =? py p1); [intros [= <- <- <-]; tauto|discriminate].
Qed.

Lemma flatChoice_some (p1 p2 p3 : Point F) :
  py p1 = py p2 \/ py p2 = py p3 \/ py p3 = py p1 ->
  exists v1 v2 v3, flatChoice p1 p2 p3 = Some (v1, v2, v3).
Proof.
  intros Hflat. unfold flatChoice.
  destruct (Z.eqb_spec (py p1) (py p2)); [eauto|].
  destruct (Z.eqb_spec (py p2) (py p3)); [eauto|].
  destruct (Z.eqb_spec (py p3) (py p1)); [eauto|lia].
Qed.

(** In flat mode a triangle with a flat pair is always drawn. *)
Lemma drawTriangle_flat_mode_ok (depth : nat) (buff : Buff F)
    (p1 p2 p3 : Point F) :
  py p1 = py p2 \/ py p2 = py p3 \/ py p3 = py p1 ->
  exists buff', drawTriangle (S depth) buff p1 p2 p3 false = Ok buff'.
Proof.
  intros Hflat. rewrite drawTriangle_unfold.
  destruct (flatChoice_some p1 (recolor false p1 p2) (recolor false p1 p3))
    as (v1 & v2 & v3 & ->); [now rewrite !py_recolor|].
  apply fillFlat_ok. now left.
Qed.


(** C3: three coincident vertices in smooth mode make [drawTriangle] raise
    [ZeroDivisionError], and so do two coincident vertices passed second and
    third when the first vertex lies on their level; in flat mode every
    triangle with two coincident vertices is drawn, and in smooth mode it is
    drawn when the third vertex lies on another level. No call loops. *)
Theorem coincident_vertices (depth : nat) (buff : Buff F) (p q : Point F) :
  drawTriangle (S depth) buff p p p true = Raise ZeroDivisionError
  /\ (py q = py p ->
      drawTriangle (S depth) buff q p p true = Raise ZeroDivisionError)
  /\ (py q <> py p ->
      (exists buff', drawTriangle (S depth) buff p p q true = Ok buff')
      /\ (exists buff', drawTriangle (S depth) buff p q p true = Ok buff')
      /\ (exists buff', drawTriangle (S depth) buff q p p true = Ok buff'))
  /\ (exists buff', drawTriangle (S depth) buff p p q false = Ok buff')
  /\ (exists buff', drawTriangle (S depth) buff p q p false = Ok buff')
  /\ (exists buff', drawTriangle (S depth) buff q p p false = Ok buff').
Proof.
  assert (Hraise : forall x, py x = py p ->
            drawTriangle (S depth) buff x p p true = Raise ZeroDivisionError).
  { intros x Hx. rewrite drawTriangle_unfold. unfold flatChoice, recolor.
    cbn [negb]. apply Z.eqb_eq in Hx. rewrite Hx.
    apply fillFlat_raise. now right. }
  split; [now apply Hraise|]. split; [exact (Hraise q)|].
  split; [intros Hne; repeat split; apply drawTriangle_two_levels; lia|].
  repeat split; apply drawTriangle_flat_mode_ok; auto.
Qed.

(** C6 as the code has it: [drawTriangle] generates the two edges from the
    apex [v3] to the flat pair [v1], [v2] in the shading mode of the call;
    in flat mode both edges are generated and each of their points has the
    colour of [p1]. *)
Theorem edges_use_caller_mode (depth : nat) (buff : Buff F)
    (p1 p2 p3 v1 v2 v3 : Point F) (doSmooth : bool) :
  flatChoice p1 (recolor doSmooth p1 p2) (recolor doSmooth p1 p3)
  = Some (v1, v2, v3) ->
  drawTriangle (S depth) buff p1 p2 p3 doSmooth
  = (line1 <- pointsOnLine v3 v1 doSmooth ;;
     line2 <- pointsOnLine v3 v2 doSmooth ;;
     a <- item0 line1 ;;
     b <- item0 line2 ;;
     scanFill buff line1 (if negb (py a =? py b) then rev line2 else line2))
  /\ (doSmooth = false ->
      exists line1 line2,
        pointsOnLine v3 v1 doSmooth = Ok line1
        /\ pointsOnLine v3 v2 doSmooth = Ok line2
        /\ Forall (fun q => getColor q = getColor p1) line1
        /\ Forall (fun q => getColor q = getColor p1) line2).
Proof.
  intros Hchoice. split.
  - rewrite drawTriangle_unfold, Hchoice. reflexivity.
  - intros ->. apply flatChoice_members in Hchoice as (_ & _ & Hv3).
    assert (Hc : getColor v3 = getColor p1)
      by (destruct Hv3 as [->|[->| ->]]; reflexivity).
    exists (scanPoints v3 v1 false), (scanPoints v3 v2 false).
    rewrite !pointsOnLine_ok by now left. rewrite <- Hc.
    repeat split; apply scanPoints_flat_color.
Qed.

End TriangleClaims.

(** ** Interpolated colours in exact arithmetic *)

Section ExactColours.

Import Exact.

Local Open Scope Q_scope.









End ExactColours.

(** ** The theorems at sample inputs *)

Import Demo.

(** The split of the triangle (0,0), (3,3), (5,1). *)
Lemma split_search_terminates_witness :
  exists a b y u1 u2 w1 w2 line pre s post buff1 buff2,
    splitChoice low (recolor true low high) (recolor true low mid)
    = Some (a, b, y, (u1, u2), (w1, w2))
    /\ between y (py a) (py b) = true
    /\ pointsOnLine a b true = Ok line
    /\ line = pre ++ s :: post
    /\ py s = y
    /\ (forall x, In x post -> py x <> y)
    /\ splitSearch line y = Ok s
    /\ (py u1 = py s \/ py u2 = py s)
    /\ (py w1 = py s \/ py w2 = py s)
    /\ drawTriangle 1 [] u1 u2 s true = Ok buff1
    /\ drawTriangle 1 buff1 w1 w2 s true = Ok buff2
    /\ drawTriangle 2 [] low high mid true = Ok buff2.
Proof.
  apply (split_search_terminates 0 [] low high mid true); cbn; lia.
Defined.


(** The segment (0,0)-(2,1) in flat mode. *)
Lemma dominant_axis_unit_steps_witness :
  (shallow seg1 seg2 = true ->
     chain (fun a b => px b = px a + 1
                       /\ (py b = py a \/ py b = py a + stepOf seg1 seg2))
           segFlat
     /\ NoDup (map px segFlat))
  /\ (shallow seg1 seg2 = false ->
        chain (fun a b => py b = py a + 1
                          /\ (px b = px a \/ px b = px a + stepOf seg1 seg2))
              segFlat
        /\ NoDup (map py segFlat))
  /\ (stepOf seg1 seg2 = 1 \/ stepOf seg1 seg2 = -1).
Proof.
  apply (dominant_axis_unit_steps seg1 seg2 false segFlat). reflexivity.
Defined.

(** The triangle (0,0), (4,0), (8,2) in flat mode. *)
Lemma edges_use_caller_mode_witness :
  drawTriangle 1 [] flat1 flat2 apex false
  = (line1 <- pointsOnLine apex flat1 false ;;
     line2 <- pointsOnLine apex flat2 false ;;
     a <- item0 line1 ;;
     b <- item0 line2 ;;
     scanFill [] line1 (if negb (py a =? py b) then rev line2 else line2))
  /\ (false = false ->
      exists line1 line2,
        pointsOnLine apex flat1 false = Ok line1
        /\ pointsOnLine apex flat2 false = Ok line2
        /\ Forall (fun q => getColor q = getColor flat1) line1
        /\ Forall (fun q => getColor q = getColor flat1) line2).
Proof.
  apply (edges_use_caller_mode 0 [] flat1 flat2 apex flat1 flat2 apex false).
  reflexivity.
Defined.


(** ** Where the specification and the code part *)

(** C6 as stated fails. In flat mode the edge of a triangle whose vertices
    coincide is generated ([drawTriangle] goes on to write the pixel), where
    the smooth generator raises; and in binary64 the points of a flat-mode
    edge carry the vertex colour 0.9, where the smooth generator returns its
    successor for the second point. *)
Lemma edges_flat_mode_not_smooth :
  edges flat1 flat1 flat1 false = Ok ([flat1], [flat1])
  /\ edges flat1 flat1 flat1 true = Raise ZeroDivisionError
  /\ (exists buff', drawTriangle 1 [] flat1 flat1 flat1 false = Ok buff')
  /\ edges (fat 0 0 g9) (fat 3 0 g9) (fat 0 3 g9) false
     = Ok ([fat 0 0 g9; fat 0 1 g9; fat 0 2 g9; fat 0 3 g9],
           [fat 3 0 g9; fat 2 1 g9; fat 1 2 g9; fat 0 3 g9])
  /\ edges (fat 0 0 g9) (fat 3 0 g9) (fat 0 3 g9) true
     = Ok ([fat 0 0 g9; fat 0 1 g9up; fat 0 2 g9; fat 0 3 g9],
           [fat 3 0 g9; fat 2 1 g9; fat 1 2 g9up; fat 0 3 g9])
  /\ PrimFloat.ltb g9 g9up = true.
Proof.
  repeat split; try reflexivity. eexists. reflexivity.
Qed.


(** ** Zero-length input in binary64 *)

(** A white point, as three right clicks on one pixel produce it. *)
Example dot_smooth_generator :
  pointsOnLine (fat 0 0 1) (fat 0 0 1) true = Raise ZeroDivisionError.
Proof. reflexivity. Qed.

Example dot_smooth_line :
  drawLine [] (fat 0 0 1) (fat 0 0 1) true
  = Ok [(0, 0, 0, 255%float); (0, 0, 1, 255%float); (0, 0, 2, 255%float)].
Proof. reflexivity. Qed.

Example dot_smooth_triangle :
  drawTriangle 1 [] (fat 0 0 1) (fat 0 0 1) (fat 0 0 1) true
  = Raise ZeroDivisionError.
Proof. reflexivity. Qed.

Example dot_flat_triangle :
  drawTriangle 1 [] (fat 0 0 1) (fat 0 0 1) (fat 0 0 1) false
  = Ok [(0, 0, 0, 255%float); (0, 0, 1, 255%float); (0, 0, 2, 255%float)].
Proof. reflexivity. Qed.

Example row_smooth_triangle :
  drawTriangle 1 [] (fat 5 0 1) (fat 0 0 1) (fat 0 0 1) true
  = Raise ZeroDivisionError.
Proof. reflexivity. Qed.

(** * Further properties of the rasterizer *)

(** ** Every point of the decision-variable walk *)

(** At every visited pair the other coordinate has moved [c] times, [c]
    between [0] and the number of steps made, and twice the distance to the
    ideal line, scaled by [dM], is at most [dM]. *)
Lemma bres_error (step l dM dm m0 hi : Z) :
  0 <= dm <= dM ->
  forall lo m D c,
    l <= lo ->
    0 <= c <= lo - l ->
    m = m0 + step * c ->
    D = 2 * dm * (lo - l + 1) - dM * (2 * c + 1) ->
    2 * dm - 2 * dM <= D <= 2 * dm ->
    Forall (fun km => exists c',
              snd km = m0 + step * c'
              /\ 0 <= c' <= fst km - l
              /\ - dM <= 2 * dm * (fst km - l) - 2 * dM * c' <= dM)
           (bres step (dm * 2) (dm * 2 - dM * 2) (range lo hi) m D).
Proof.
  intros Hdm lo.
  pattern lo, (range lo hi). apply range_ind; clear lo.
  - intros lo _ m D c _ _ _ _ _. constructor.
  - intros lo Hlt IH m D c Hlo Hc Hm HD Hbnd. cbn [bres].
    constructor.
    + exists c. cbn [fst snd]. repeat split; try lia.
    + destruct (Z.ltb_spec 0 D) as [Hpos|Hneg].
      * apply (IH _ _ (c + 1)); lia.
      * apply (IH _ _ c); lia.
Qed.

Section TrackPoints.

Context {F : Type} `{Channel F}.

Lemma major_place (p1 p2 : Point F) (km : Z * Z) (c : ColorType F) :
  major p1 p2 (mkPoint (place p1 p2 km) c) = fst km
  /\ minor p1 p2 (mkPoint (place p1 p2 km) c) = snd km.
Proof.
  unfold major, minor, place, px, py. destruct (shallow p1 p2); cbn; auto.
Qed.

(** Every generated point, by its dominant and its other coordinate. *)
Lemma scanPoints_each (p1 p2 : Point F) (doSmooth : bool) :
  Forall (fun q => exists c,
            minor p1 p2 q = minor p1 p2 (lft p1 p2) + stepOf p1 p2 * c
            /\ 0 <= c <= dMinor p1 p2
            /\ major p1 p2 (lft p1 p2) <= major p1 p2 q
               <= major p1 p2 (rgt p1 p2)
            /\ - dMajor p1 p2
               <= 2 * dMinor p1 p2 * (major p1 p2 q - major p1 p2 (lft p1 p2))
                  - 2 * dMajor p1 p2 * c
               <= dMajor p1 p2)
         (scanPoints p1 p2 doSmooth).
Proof.
  pose proof (dMinor_bounds p1 p2) as Hb.
  pose proof (major_rgt p1 p2) as Hr.
  assert (Herr := bres_error (stepOf p1 p2) (major p1 p2 (lft p1 p2))
                    (dMajor p1 p2) (dMinor p1 p2) (minor p1 p2 (lft p1 p2))
                    (major p1 p2 (rgt p1 p2) + 1) Hb
                    (major p1 p2 (lft p1 p2)) (minor p1 p2 (lft p1 p2))
                    (dMinor p1 p2 * 2 - dMajor p1 p2) 0).
  fold (track p1 p2) in Herr.
  assert (Htrack : Forall (fun km => exists c',
              snd km = minor p1 p2 (lft p1 p2) + stepOf p1 p2 * c'
              /\ 0 <= c' <= fst km - major p1 p2 (lft p1 p2)
              /\ - dMajor p1 p2
                 <= 2 * dMinor p1 p2 * (fst km - major p1 p2 (lft p1 p2))
                    - 2 * dMajor p1 p2 * c'
                 <= dMajor p1 p2) (track p1 p2)) by (apply Herr; lia).
  clear Herr. unfold scanPoints. apply Forall_forall. intros q Hq.
  apply in_map_iff in Hq as (km & <- & Hkm).
  rewrite Forall_forall in Htrack.
  destruct (Htrack km Hkm) as (c & Hm & Hc & He).
  assert (Hk : In (fst km) (map fst (track p1 p2))) by now apply in_map.
  rewrite track_fst, range_In in Hk.
  destruct (major_place p1 p2 km (shade p1 p2 doSmooth (fst km))) as [-> ->].
  exists c. repeat split; try lia.
  destruct (Z.eq_dec (dMajor p1 p2) 0) as [Hz|Hnz]; [lia|].
  assert (c <= dMinor p1 p2 \/ dMinor p1 p2 + 1 <= c) as [Hle|Hgt] by lia;
    [exact Hle|exfalso; nia].
Qed.

End TrackPoints.

(** ** More on the generated sequence *)

Section GeneratorExtras.

Context {F : Type} `{Channel F}.

Lemma dMajor_max (p1 p2 : Point F) :
  dMajor p1 p2 = Z.max (Z.abs (px p2 - px p1)) (Z.abs (py p2 - py p1)).
Proof.
  unfold dMajor, major, lft, rgt, shallow.
  destruct (Z.leb_spec (Z.abs (py p2 - py p1)) (Z.abs (px p2 - px p1)));
    [destruct (Z.ltb_spec (px p1) (px p2))|destruct (Z.ltb_spec (py p1) (py p2))];
    lia.
Qed.

Lemma scanPoints_length (p1 p2 : Point F) (doSmooth : bool) :
  Z.of_nat (length (scanPoints p1 p2 doSmooth)) = dMajor p1 p2 + 1.
Proof.
  pose proof (dMinor_bounds p1 p2) as Hb.
  unfold scanPoints, track.
  rewrite length_map, bres_length, range_length, major_rgt. lia.
Qed.

(** X1: a returned sequence has one point per unit of the larger of the two
    coordinate differences, both ends counted. *)
Theorem pointsOnLine_length (p1 p2 : Point F) (doSmooth : bool)
    (l : list (Point F)) :
  pointsOnLine p1 p2 doSmooth = Ok l ->
  Z.of_nat (length l)
  = Z.max (Z.abs (px p2 - px p1)) (Z.abs (py p2 - py p1)) + 1.
Proof.
  intros Hl. apply pointsOnLine_inv in Hl. subst l.
  now rewrite scanPoints_length, dMajor_max.
Qed.

Ltac axes :=
  unfold dMinor, stepOf, dMinorS, dMajor, major, minor, lft, rgt, shallow in *;
  repeat match goal with
         | |- context [?a <=? ?b] => destruct (Z.leb_spec a b)
         | |- context [?a <? ?b] => destruct (Z.ltb_spec a b)
         | _ : context [?a <=? ?b] |- _ => destruct (Z.leb_spec a b)
         | _ : context [?a <? ?b] |- _ => destruct (Z.ltb_spec a b)
         end.

Lemma scanPoints_in_box (p1 p2 : Point F) (doSmooth : bool) :
  Forall (fun q => inBox (Z.min (px p1) (px p2)) (Z.max (px p1) (px p2))
                         (Z.min (py p1) (py p2)) (Z.max (py p1) (py p2))
                         (getCoords q))
         (scanPoints p1 p2 doSmooth).
Proof.
  eapply Forall_impl; [|apply (scanPoints_each p1 p2 doSmooth)].
  intros q (c & Hm & Hc & Hk & _).
  unfold inBox. change (fst (getCoords q)) with (px q).
  change (snd (getCoords q)) with (py q).
  axes; lia.
Qed.

(** X2: every point of a returned sequence lies in the rectangle spanned by
    the two endpoints. *)
Theorem pointsOnLine_in_box (p1 p2 : Point F) (doSmooth : bool)
    (l : list (Point F)) :
  pointsOnLine p1 p2 doSmooth = Ok l ->
  Forall (fun q => Z.min (px p1) (px p2) <= px q <= Z.max (px p1) (px p2)
                   /\ Z.min (py p1) (py p2) <= py q <= Z.max (py p1) (py p2))
         l.
Proof.
  intros Hl. apply pointsOnLine_inv in Hl. subst l.
  exact (scanPoints_in_box p1 p2 doSmooth).
Qed.

(** X3: every point of a returned sequence is within half a pixel of the
    segment, measured along the axis that is not dominant: twice the cross
    product of the segment with the offset of the point is at most the
    larger coordinate difference. *)
Theorem pointsOnLine_half_pixel (p1 p2 : Point F) (doSmooth : bool)
    (l : list (Point F)) :
  pointsOnLine p1 p2 doSmooth = Ok l ->
  Forall (fun q =>
            2 * Z.abs ((px p2 - px p1) * (py q - py p1)
                       - (py p2 - py p1) * (px q - px p1))
            <= Z.max (Z.abs (px p2 - px p1)) (Z.abs (py p2 - py p1)))
         l.
Proof.
  intros Hl. apply pointsOnLine_inv in Hl. subst l.
  rewrite <- dMajor_max.
  eapply Forall_impl; [|apply (scanPoints_each p1 p2 doSmooth)].
  intros q (c & Hm & Hc & Hk & He).
  axes; nia.
Qed.

End GeneratorExtras.

Section Swap.

Context {F : Type} `{Channel F}.

Lemma shallow_swap (p1 p2 : Point F) : shallow p2 p1 = shallow p1 p2.
Proof.
  unfold shallow.
  destruct (Z.leb_spec (Z.abs (py p1 - py p2)) (Z.abs (px p1 - px p2)));
    destruct (Z.leb_spec (Z.abs (py p2 - py p1)) (Z.abs (px p2 - px p1)));
    try reflexivity; lia.
Qed.

Lemma dMajor_swap (p1 p2 : Point F) : dMajor p2 p1 = dMajor p1 p2.
Proof. rewrite !dMajor_max. lia. Qed.

Lemma lft_rgt_swap (p1 p2 : Point F) :
  dMajor p1 p2 <> 0 -> lft p2 p1 = lft p1 p2 /\ rgt p2 p1 = rgt p1 p2.
Proof.
  intros Hnz. pose proof (shallow_swap p1 p2) as Hs.
  unfold dMajor, major, lft, rgt in *. rewrite Hs.
  destruct (shallow p1 p2).
  - destruct (Z.ltb_spec (px p1) (px p2)), (Z.ltb_spec (px p2) (px p1));
      try (split; reflexivity); lia.
  - destruct (Z.ltb_spec (py p1) (py p2)), (Z.ltb_spec (py p2) (py p1));
      try (split; reflexivity); lia.
Qed.

Lemma track_swap (p1 p2 : Point F) :
  dMajor p1 p2 <> 0 -> track p2 p1 = track p1 p2.
Proof.
  intros Hnz. destruct (lft_rgt_swap p1 p2 Hnz) as [Hl Hr].
  unfold track, dMinor, stepOf, dMinorS, dMajor, major, minor.
  now rewrite Hl, Hr, shallow_swap.
Qed.

Lemma scanPoints_swap_smooth (p1 p2 : Point F) :
  dMajor p1 p2 <> 0 -> scanPoints p2 p1 true = scanPoints p1 p2 true.
Proof.
  intros Hnz. destruct (lft_rgt_swap p1 p2 Hnz) as [Hl Hr].
  unfold scanPoints. rewrite (track_swap p1 p2 Hnz).
  apply map_ext. intros km.
  unfold shade, shadeAt, shadeWith, place, dMajor, major.
  now rewrite Hl, Hr, shallow_swap.
Qed.

Lemma scanPoints_swap_coords (p1 p2 : Point F) (m m' : bool) :
  map getCoords (scanPoints p2 p1 m) = map getCoords (scanPoints p1 p2 m').
Proof.
  rewrite !scanPoints_coords.
  destruct (Z.eq_dec (dMajor p1 p2) 0) as [Hz|Hnz].
  - assert (Hz' : dMajor p2 p1 = 0) by now rewrite dMajor_swap.
    rewrite (track_dot p1 p2 Hz), (track_dot p2 p1 Hz'). cbn [map].
    rewrite !place_coords. f_equal.
    apply dMajor_zero in Hz.
    destruct (lft_rgt_cases p1 p2) as [[-> _]|[-> _]],
             (lft_rgt_cases p2 p1) as [[-> _]|[-> _]]; congruence.
  - rewrite (track_swap p1 p2 Hnz). apply map_ext. intros km.
    unfold place. now rewrite shallow_swap.
Qed.

(** X4: the generator does not depend on the order of its endpoints in
    smooth mode, where it returns the same points with the same colours or
    raises for both orders; in flat mode, where it always returns, the two
    orders give the same coordinates and differ in the colour only, which is
    that of the first argument. *)
Theorem pointsOnLine_swap (p1 p2 : Point F) :
  pointsOnLine p2 p1 true = pointsOnLine p1 p2 true
  /\ exists l l',
       pointsOnLine p1 p2 false = Ok l
       /\ pointsOnLine p2 p1 false = Ok l'
       /\ map getCoords l' = map getCoords l
       /\ Forall (fun q => getColor q = getColor p1) l
       /\ Forall (fun q => getColor q = getColor p2) l'.
Proof.
  split.
  - rewrite !pointsOnLine_eq, dMajor_swap. cbn [andb].
    destruct (Z.eqb_spec (dMajor p1 p2) 0) as [Hz|Hnz]; [reflexivity|].
    now rewrite scanPoints_swap_smooth.
  - exists (scanPoints p1 p2 false), (scanPoints p2 p1 false).
    rewrite !pointsOnLine_ok by now left.
    repeat split; try apply scanPoints_flat_color.
    apply scanPoints_swap_coords.
Qed.

End Swap.

(** ** What [drawLine] writes *)

Section LineWrites.

Context {F : Type} `{Channel F}.

Lemma drawPoint_stores (buff : Buff F) (q : Point F) :
  drawPoint buff q = buff ++ pixelStores q.
Proof. reflexivity. Qed.

Lemma fold_drawPoint (l : list (Point F)) :
  forall buff, fold_left drawPoint l buff = buff ++ flat_map pixelStores l.
Proof.
  induction l as [|q l IH]; intros buff; cbn [fold_left flat_map].
  - now rewrite app_nil_r.
  - now rewrite IH, drawPoint_stores, <- app_assoc.
Qed.

Lemma drawLine_log (buff : Buff F) (p1 p2 : Point F) (doSmooth : bool) :
  drawLine buff p1 p2 doSmooth
  = Ok (buff ++ flat_map pixelStores (drawnPoints p1 p2 doSmooth)).
Proof. now rewrite drawLine_eq, fold_drawPoint. Qed.

Lemma pixelStores_length (l : list (Point F)) :
  length (flat_map pixelStores l) = (3 * length l)%nat.
Proof.
  induction l as [|q l IH]; [reflexivity|].
  cbn [flat_map]. rewrite length_app, IH. cbn [pixelStores length]. lia.
Qed.

Lemma drawnPoints_length (p1 p2 : Point F) (doSmooth : bool) :
  Z.of_nat (length (drawnPoints p1 p2 doSmooth)) = dMajor p1 p2 + 1.
Proof.
  unfold drawnPoints. destruct (Z.eqb_spec (dMajor p1 p2) 0) as [Hz|Hnz].
  - rewrite Hz. reflexivity.
  - apply scanPoints_length.
Qed.

Lemma drawnPoints_coords (p1 p2 : Point F) (doSmooth : bool) :
  map getCoords (drawnPoints p1 p2 doSmooth)
  = map getCoords (scanPoints p1 p2 false).
Proof.
  unfold drawnPoints. destruct (Z.eqb_spec (dMajor p1 p2) 0) as [Hz|Hnz].
  - unfold scanPoints, dotPoint. rewrite (track_dot _ _ Hz). cbn [map getCoords fst].
    now rewrite place_coords.
  - now rewrite !scanPoints_coords.
Qed.

Lemma Forall_coords {A : Type} (P : Z * Z -> Prop) (l l' : list (Point F)) :
  map getCoords l = map getCoords l' ->
  Forall (fun q => P (getCoords q)) l' -> Forall (fun q => P (getCoords q)) l.
Proof.
  intros Hmap Hl'.
  rewrite <- (Forall_map getCoords P) in *. now rewrite Hmap.
Qed.

Lemma stores_in_box (xlo xhi ylo yhi : Z) (l : list (Point F)) :
  Forall (fun q => inBox xlo xhi ylo yhi (getCoords q)) l ->
  Forall (fun st => inBox xlo xhi ylo yhi (storeXY st)) (flat_map pixelStores l).
Proof.
  induction 1 as [|q l Hq _ IH]; cbn [flat_map]; [constructor|].
  apply Forall_app. split; [|exact IH].
  unfold pixelStores.
  repeat (apply Forall_cons; [exact Hq|]). apply Forall_nil.
Qed.

(** A rectangle that holds both endpoints holds the whole drawn line. *)
Lemma drawnPoints_in_box (xlo xhi ylo yhi : Z) (p1 p2 : Point F)
    (doSmooth : bool) :
  inBox xlo xhi ylo yhi (getCoords p1) ->
  inBox xlo xhi ylo yhi (getCoords p2) ->
  Forall (fun q => inBox xlo xhi ylo yhi (getCoords q))
         (drawnPoints p1 p2 doSmooth).
Proof.
  intros H1 H2.
  apply (Forall_coords (A := unit) _ _ _ (drawnPoints_coords p1 p2 doSmooth)).
  eapply Forall_impl; [|apply (scanPoints_in_box p1 p2 false)].
  intros q. unfold inBox in *.
  change (fst (getCoords p1)) with (px p1) in H1.
  change (snd (getCoords p1)) with (py p1) in H1.
  change (fst (getCoords p2)) with (px p2) in H2.
  change (snd (getCoords p2)) with (py p2) in H2.
  lia.
Qed.

(** X5: [drawLine] never raises; it keeps what the framebuffer log holds and
    appends three channel assignments for each of its pixels, of which there
    is one per unit of the larger coordinate difference, both ends
    counted. *)
Theorem drawLine_pixel_count (buff : Buff F) (p1 p2 : Point F)
    (doSmooth : bool) :
  exists new,
    drawLine buff p1 p2 doSmooth = Ok (buff ++ new)
    /\ Z.of_nat (length new)
       = 3 * (Z.max (Z.abs (px p2 - px p1)) (Z.abs (py p2 - py p1)) + 1).
Proof.
  exists (flat_map pixelStores (drawnPoints p1 p2 doSmooth)).
  split; [apply drawLine_log|].
  rewrite pixelStores_length, <- dMajor_max,
    <- (drawnPoints_length p1 p2 doSmooth). lia.
Qed.

(** X6: every pixel [drawLine] writes lies in the rectangle spanned by the
    two endpoints, in both modes and for a segment of length zero too. *)
Theorem drawLine_in_box (buff : Buff F) (p1 p2 : Point F) (doSmooth : bool) :
  exists new,
    drawLine buff p1 p2 doSmooth = Ok (buff ++ new)
    /\ Forall (fun st => inBox (Z.min (px p1) (px p2)) (Z.max (px p1) (px p2))
                               (Z.min (py p1) (py p2)) (Z.max (py p1) (py p2))
                               (storeXY st)) new.
Proof.
  exists (flat_map pixelStores (drawnPoints p1 p2 doSmooth)).
  split; [apply drawLine_log|].
  apply stores_in_box, drawnPoints_in_box; unfold inBox;
    [change (fst (getCoords p1)) with (px p1);
     change (snd (getCoords p1)) with (py p1)
    |change (fst (getCoords p2)) with (px p2);
     change (snd (getCoords p2)) with (py p2)]; lia.
Qed.

(** X7: in smooth mode [drawLine] does not depend on the order of two
    endpoints with different coordinates. *)
Theorem drawLine_swap (buff : Buff F) (p1 p2 : Point F) :
  getCoords p1 <> getCoords p2 ->
  drawLine buff p2 p1 true = drawLine buff p1 p2 true.
Proof.
  intros Hne.
  assert (Hnz : dMajor p1 p2 <> 0) by (now rewrite dMajor_zero).
  rewrite !drawLine_eq, !drawnPoints_nonzero, scanPoints_swap_smooth; auto.
  now rewrite dMajor_swap.
Qed.

End LineWrites.

(** ** More on the triangle rasterizer *)

Section TriangleExtras.

Context {F : Type} `{Channel F}.

Lemma splitSearch_ok_inv (y : Z) (line : list (Point F)) (s : Point F) :
  splitSearch line y = Ok s ->
  exists pre post,
    line = pre ++ s :: post /\ py s = y /\ sameYNext s post = false.
Proof.
  induction line as [|q rest IH]; [discriminate|].
  destruct rest as [|q' r].
  - cbn [splitSearch]. destruct (Z.eqb_spec (py q) y); [|discriminate].
    intros [= <-]. exists [], []. auto.
  - cbn [splitSearch].
    destruct (Z.eqb_spec (py q) (py q')) as [Hsame|Hdiff].
    + intros Hs. destruct (IH Hs) as (pre & post & -> & Hy & Hn).
      exists (q :: pre), post. auto.
    + destruct (Z.eqb_spec (py q) y) as [Hq|Hq].
      * intros [= <-]. exists [], (q' :: r). cbn. repeat split; auto.
        now apply Z.eqb_neq.
      * intros Hs. destruct (IH Hs) as (pre & post & -> & Hy & Hn).
        exists (q :: pre), post. auto.
Qed.

Lemma splitSearch_raise (y : Z) (line : list (Point F)) (e : exn) :
  splitSearch line y = Raise e -> e = IndexError.
Proof.
  induction line as [|q rest IH]; [now intros [= <-]|].
  destruct rest as [|q' r]; cbn [splitSearch].
  - destruct (py q =? y); [discriminate|now intros [= <-]].
  - destruct (py q =? py q'); [exact IH|].
    destruct (py q =? y); [discriminate|exact IH].
Qed.

(** X8: the search of the split point returns a point of the wanted level
    that ends its run of equal [y] whenever the line has a point of that
    level, and raises [IndexError] exactly when it has none; it never runs
    on. *)
Theorem splitSearch_outcome (line : list (Point F)) (y : Z) :
  match splitSearch line y with
  | Ok s =>
      exists pre post,
        line = pre ++ s :: post /\ py s = y /\ sameYNext s post = false
  | Raise e => e = IndexError /\ Forall (fun q => py q <> y) line
  end.
Proof.
  destruct (splitSearch line y) as [s|e] eqn:E.
  - now apply splitSearch_ok_inv.
  - split; [now apply splitSearch_raise in E|].
    apply Forall_forall. intros q Hq Hy.
    destruct (splitSearch_found y line) as (pre & s & post & _ & Hs & _);
      [eauto|congruence].
Qed.

Lemma splitChoice_levels (p1 p2 p3 a b u1 u2 w1 w2 : Point F) (y : Z) :
  splitChoice p1 p2 p3 = Some (a, b, y, (u1, u2), (w1, w2)) ->
  (py u1 = y \/ py u2 = y) /\ (py w1 = y \/ py w2 = y)
  /\ between y (py a) (py b) = true
  /\ (forall x, In x [a; b; u1; u2; w1; w2] -> x = p1 \/ x = p2 \/ x = p3).
Proof.
  unfold splitChoice.
  destruct (between (py p1) (py p2) (py p3)) eqn:B1;
    [|destruct (between (py p2) (py p1) (py p3)) eqn:B2;
      [|destruct (between (py p3) (py p1) (py p2)) eqn:B3; [|discriminate]]];
    intros [= <- <- <- <- <- <- <-]; repeat split; auto;
    intros x Hx; cbn in Hx; intuition congruence.
Qed.

(** A triangle with three different levels is drawn with one nested level
    of calls. *)
Lemma drawTriangle_split_ok (depth : nat) (buff : Buff F)
    (p1 p2 p3 : Point F) (doSmooth : bool) :
  py p1 <> py p2 -> py p2 <> py p3 -> py p3 <> py p1 ->
  exists buff', drawTriangle (S (S depth)) buff p1 p2 p3 doSmooth = Ok buff'.
Proof.
  intros H12 H23 H31.
  rewrite drawTriangle_unfold. unfold flatChoice. rewrite !py_recolor.
  destruct (Z.eqb_spec (py p1) (py p2)); [contradiction|].
  destruct (Z.eqb_spec (py p2) (py p3)); [contradiction|].
  destruct (Z.eqb_spec (py p3) (py p1)); [contradiction|].
  destruct (splitChoice p1 (recolor doSmooth p1 p2) (recolor doSmooth p1 p3))
    as [[[[[a b] y] [u1 u2]] [w1 w2]]|] eqn:Hchoice.
  2:{ exfalso. unfold splitChoice, between in Hchoice.
      rewrite !py_recolor in Hchoice.
      destruct (Z.ltb_spec (py p2) (py p1)), (Z.ltb_spec (py p1) (py p3)),
        (Z.ltb_spec (py p1) (py p2)), (Z.ltb_spec (py p3) (py p1)),
        (Z.ltb_spec (py p2) (py p3)), (Z.ltb_spec (py p3) (py p2));
        cbn in Hchoice; try discriminate; lia. }
  pose proof (splitChoice_levels _ _ _ _ _ _ _ _ _ _ Hchoice)
    as (Hu & Hw & Hbtw & Hmem).
  destruct (edge_reaches a b y Hbtw) as (line & d & -> & Hd & Hp & Hx).
  cbn [bind].
  destruct (splitSearch_found y line Hx) as (pre & s & post & Hl & -> & Hys & Hn).
  cbn [bind].
  assert (Hdu : py u1 <> py u2).
  { unfold splitChoice in Hchoice. rewrite !py_recolor in Hchoice.
    destruct (between (py p1) (py p2) (py p3));
      [|destruct (between (py p2) (py p1) (py p3));
        [|destruct (between (py p3) (py p1) (py p2)); [|discriminate]]];
      injection Hchoice as <- <- <- <- <- <- <-; rewrite ?py_recolor; lia. }
  assert (Hdw : py w1 <> py w2).
  { unfold splitChoice in Hchoice. rewrite !py_recolor in Hchoice.
    destruct (between (py p1) (py p2) (py p3));
      [|destruct (between (py p2) (py p1) (py p3));
        [|destruct (between (py p3) (py p1) (py p2)); [|discriminate]]];
      injection Hchoice as <- <- <- <- <- <- <-; rewrite ?py_recolor; lia. }
  destruct (drawTriangle_two_levels depth buff u1 u2 s doSmooth) as (b1 & ->);
    [lia|].
  cbn [bind]. apply drawTriangle_two_levels. lia.
Qed.

Lemma coords_dec (a b : Point F) :
  {getCoords a = getCoords b} + {getCoords a <> getCoords b}.
Proof.
  destruct (getCoords a) as [x y], (getCoords b) as [x' y'].
  destruct (Z.eq_dec x x'), (Z.eq_dec y y');
    [left; congruence|right; congruence..].
Qed.

Lemma flatChoice_none (p1 p2 p3 : Point F) :
  flatChoice p1 p2 p3 = None ->
  py p1 <> py p2 /\ py p2 <> py p3 /\ py p3 <> py p1.
Proof.
  unfold flatChoice.
  destruct (Z.eqb_spec (py p1) (py p2)); [discriminate|].
  destruct (Z.eqb_spec (py p2) (py p3)); [discriminate|].
  destruct (Z.eqb_spec (py p3) (py p1)); [discriminate|auto].
Qed.

(** X9: a call of [drawTriangle] returns or raises [ZeroDivisionError], and
    nothing else; it raises exactly in smooth mode on a triangle with two
    vertices on one level whose third vertex, the apex the code picks, has
    the coordinates of one of the two. In flat mode it always returns. *)
Theorem drawTriangle_outcome (depth : nat) (buff : Buff F)
    (p1 p2 p3 : Point F) (doSmooth : bool) :
  match drawTriangle (S (S depth)) buff p1 p2 p3 doSmooth with
  | Ok _ =>
      doSmooth = false
      \/ forall v1 v2 v3,
           flatChoice p1 p2 p3 = Some (v1, v2, v3) ->
           getCoords v3 <> getCoords v1 /\ getCoords v3 <> getCoords v2
  | Raise e =>
      e = ZeroDivisionError /\ doSmooth = true
      /\ exists v1 v2 v3,
           flatChoice p1 p2 p3 = Some (v1, v2, v3)
           /\ (getCoords v3 = getCoords v1 \/ getCoords v3 = getCoords v2)
  end.
Proof.
  destruct doSmooth.
  - destruct (flatChoice p1 p2 p3) as [[[v1 v2] v3]|] eqn:Hflat.
    + assert (Hun : drawTriangle (S (S depth)) buff p1 p2 p3 true
                    = fillFlat buff v1 v2 v3 true).
      { rewrite drawTriangle_unfold. unfold recolor. cbn [negb].
        now rewrite Hflat. }
      rewrite Hun.
      destruct (coords_dec v3 v1) as [H1|H1];
        [|destruct (coords_dec v3 v2) as [H2|H2]].
      * rewrite fillFlat_raise by now left. repeat split; eauto 8.
      * rewrite fillFlat_raise by now right. repeat split; eauto 8.
      * destruct (fillFlat_ok buff v1 v2 v3 true) as (b' & ->); [now right|].
        right. now intros ? ? ? [= <- <- <-].
    + apply flatChoice_none in Hflat as (H12 & H23 & H31).
      destruct (drawTriangle_split_ok depth buff p1 p2 p3 true H12 H23 H31)
        as (b' & ->).
      right. unfold flatChoice.
      destruct (Z.eqb_spec (py p1) (py p2)); [contradiction|].
      destruct (Z.eqb_spec (py p2) (py p3)); [contradiction|].
      destruct (Z.eqb_spec (py p3) (py p1)); [contradiction|discriminate].
  - assert (Hok : exists b', drawTriangle (S (S depth)) buff p1 p2 p3 false
                             = Ok b').
    { destruct (flatChoice p1 p2 p3) as [[[v1 v2] v3]|] eqn:Hflat.
      - apply drawTriangle_flat_mode_ok.
        unfold flatChoice in Hflat.
        destruct (Z.eqb_spec (py p1) (py p2)); [auto|].
        destruct (Z.eqb_spec (py p2) (py p3)); [auto|].
        destruct (Z.eqb_spec (py p3) (py p1)); [auto|discriminate].
      - apply flatChoice_none in Hflat as (H12 & H23 & H31).
        now apply drawTriangle_split_ok. }
    destruct Hok as (b' & ->). now left.
Qed.

End TriangleExtras.

Section TriangleDepth.

Context {F : Type} `{Channel F}.

(** X10: more depth than two changes nothing: for every input the calls of
    [drawTriangle] nest one level at most, so a call never stops for a
    [RecursionError] that a deeper call stack would have avoided. *)
Theorem drawTriangle_depth (depth : nat) (buff : Buff F) (p1 p2 p3 : Point F)
    (doSmooth : bool) :
  drawTriangle (S (S depth)) buff p1 p2 p3 doSmooth
  = drawTriangle 2 buff p1 p2 p3 doSmooth.
Proof.
  rewrite !drawTriangle_unfold.
  destruct (flatChoice p1 (recolor doSmooth p1 p2) (recolor doSmooth p1 p3))
    as [[[v1 v2] v3]|]; [reflexivity|].
  destruct (splitChoice p1 (recolor doSmooth p1 p2) (recolor doSmooth p1 p3))
    as [[[[[a b] y] [u1 u2]] [w1 w2]]|] eqn:Hchoice; [|reflexivity].
  pose proof (splitChoice_levels _ _ _ _ _ _ _ _ _ _ Hchoice)
    as (Hu & Hw & _ & _).
  destruct (pointsOnLine a b true) as [line|e]; [|reflexivity]. cbn [bind].
  destruct (splitSearch line y) as [s|e] eqn:Hs; [|reflexivity]. cbn [bind].
  apply splitSearch_ok_inv in Hs as (pre & post & _ & Hy & _).
  rewrite (drawTriangle_flat_depth depth buff u1 u2 s) by lia.
  destruct (drawTriangle 1 buff u1 u2 s doSmooth) as [b1|e]; [|reflexivity].
  cbn [bind]. apply drawTriangle_flat_depth. lia.
Qed.

Lemma zrun_nth (s d : Z) (n : nat) (i : Z) :
  0 <= i < Z.of_nat n -> In (s + d * i) (zrun s d n).
Proof.
  revert s i. induction n as [|n IH]; intros s i Hi; [lia|].
  cbn [zrun]. destruct (Z.eq_dec i 0) as [->|Hnz].
  - left. lia.
  - right. replace (s + d * i) with ((s + d) + d * (i - 1)) by lia.
    apply IH. lia.
Qed.

Lemma zrun_length (s d : Z) (n : nat) : length (zrun s d n) = n.
Proof. revert s. induction n as [|n IH]; intros s; cbn; auto. Qed.

Lemma edges_lines (v1 v2 v3 : Point F) (doSmooth : bool)
    (line1 line2 : list (Point F)) :
  edges v1 v2 v3 doSmooth = Ok (line1, line2) ->
  line1 = scanPoints v3 v1 doSmooth
  /\ (line2 = scanPoints v3 v2 doSmooth
      \/ line2 = rev (scanPoints v3 v2 doSmooth)).
Proof.
  unfold edges.
  destruct (pointsOnLine v3 v1 doSmooth) as [l1|] eqn:E1; [|discriminate].
  destruct (pointsOnLine v3 v2 doSmooth) as [l2|] eqn:E2; [|discriminate].
  apply pointsOnLine_inv in E1, E2. subst l1 l2. cbn [bind].
  destruct (item0 (scanPoints v3 v1 doSmooth)); [|discriminate].
  destruct (item0 (scanPoints v3 v2 doSmooth)); [|discriminate].
  cbn [bind]. destruct (negb _); intros [= <- <-]; auto.
Qed.

(** X11: in the walk of a triangle with a flat pair every level from the
    apex to the flat pair, both included, gets a filling line, and there are
    as many filling lines as levels. *)
Theorem walk_fills_every_level (p1 p2 p3 v1 v2 v3 : Point F)
    (doSmooth : bool) (line1 line2 : list (Point F)) :
  flatChoice p1 (recolor doSmooth p1 p2) (recolor doSmooth p1 p3)
  = Some (v1, v2, v3) ->
  edges v1 v2 v3 doSmooth = Ok (line1, line2) ->
  Z.of_nat (length (fills (scanEvents line1 line2)))
  = Z.abs (py v3 - py v1) + 1
  /\ forall y,
       Z.min (py v3) (py v1) <= y <= Z.max (py v3) (py v1) ->
       exists a b,
         In (a, b) (fills (scanEvents line1 line2)) /\ py a = y /\ py b = y.
Proof.
  intros Hchoice Hedges.
  pose proof (flatChoice_flat _ _ _ _ _ _ Hchoice) as Hflat.
  destruct (edges_lines _ _ _ _ _ _ Hedges) as [Hl1 _].
  destruct (edges_aligned v1 v2 v3 doSmooth line1 line2 Hflat Hedges)
    as (d1 & d2 & q1 & t1 & q2 & t2 & E1 & E2 & Hd1 & Hd2 & Hp1 & Hp2 & Hq & Hl).
  destruct (scanPoints_ends v3 v1 doSmooth) as (q & t & Hqt & Hends).
  assert (Hq1 : q = q1 /\ t = t1) by (split; congruence).
  destruct Hq1 as [-> ->]. subst line1 line2. clear Hedges.
  rewrite Hqt in *.
  pose proof (runEnds_same_levels d1 d2 q1 q2 t1 t2 Hd1 Hd2 Hp1 Hp2 Hq Hl)
    as Hlev.
  destruct (combine_same_image py _ _ Hlev) as [Hfst Hsame].
  destruct (runEnds_levels d1 t1 Hd1 q1 Hp1) as (n & Hrun & Hlast).
  assert (Hmap : map (fun ab => py (fst ab))
                     (fills (scanEvents (q1 :: t1) (q2 :: t2)))
                 = zrun (py q1) d1 (S n)).
  { now rewrite fills_scanEvents, <- map_map, Hfst. }
  split.
  - rewrite <- (length_map (fun ab => py (fst ab))), Hmap, zrun_length.
    destruct Hd1 as [-> | ->]; lia.
  - intros y Hy.
    assert (Hin : In y (map (fun ab => py (fst ab))
                            (fills (scanEvents (q1 :: t1) (q2 :: t2))))).
    { rewrite Hmap.
      replace y with (py q1 + d1 * (d1 * (y - py q1)))
        by (destruct Hd1 as [-> | ->]; lia).
      apply zrun_nth. destruct Hd1 as [-> | ->]; lia. }
    apply in_map_iff in Hin as ([a b] & Hya & Hab). cbn [fst] in Hya.
    exists a, b. split; [exact Hab|]. split; [exact Hya|].
    rewrite fills_scanEvents in Hab. rewrite <- (Hsame a b Hab). exact Hya.
Qed.

End TriangleDepth.

(** ** What [drawTriangle] writes *)

Section TriangleWrites.

Context {F : Type} `{Channel F}.

Variables (xlo xhi ylo yhi : Z).

Let boxed (q : Point F) : Prop := inBox xlo xhi ylo yhi (getCoords q).

Let written (new : Buff F) : Prop :=
  Forall (fun st => inBox xlo xhi ylo yhi (storeXY st)) new.

Lemma eventPoints_scanEvents (line1 : list (Point F)) :
  forall line2 q,
    In q (eventPoints (scanEvents line1 line2)) -> In q line1 \/ In q line2.
Proof.
  induction line1 as [|a line1' IH1]; intros line2; [contradiction|].
  induction line2 as [|b line2' IH2]; intros q.
  - rewrite scanEvents_nil_r. contradiction.
  - rewrite scanEvents_step.
    destruct (sameYNext a line1'); cbn [eventPoints].
    + intros [<-|Hq]; [left; now left|].
      destruct (IH1 _ _ Hq); [left; now right|now right].
    + destruct (sameYNext b line2'); cbn [eventPoints].
      * intros [<-|Hq]; [right; now left|].
        destruct (IH2 _ Hq); [now left|right; now right].
      * intros [<-|[<-|Hq]]; [left; now left|right; now left|].
        destruct (IH1 _ _ Hq); [left; now right|right; now right].
Qed.

Lemma runEvents_in_box (evs : list Event) :
  Forall boxed (eventPoints evs) ->
  forall buff, exists new, runEvents buff evs = Ok (buff ++ new) /\ written new.
Proof.
  induction evs as [|[q|a b] evs IH]; cbn [eventPoints runEvents]; intros Hall buff.
  - exists []. split; [now rewrite app_nil_r|constructor].
  - apply Forall_cons_iff in Hall as [Hq Hall].
    destruct (IH Hall (drawPoint buff q)) as (new & -> & Hnew).
    exists (pixelStores q ++ new). rewrite drawPoint_stores, <- app_assoc.
    split; [reflexivity|]. apply Forall_app. split; [|exact Hnew].
    apply (stores_in_box xlo xhi ylo yhi [q]). now constructor.
  - apply Forall_cons_iff in Hall as [Ha Hall].
    apply Forall_cons_iff in Hall as [Hb Hall].
    rewrite drawLine_log. cbn [bind].
    destruct (IH Hall (buff ++ flat_map pixelStores (drawnPoints a b true)))
      as (new & -> & Hnew).
    exists (flat_map pixelStores (drawnPoints a b true) ++ new).
    rewrite <- app_assoc. split; [reflexivity|].
    apply Forall_app. split; [|exact Hnew].
    now apply stores_in_box, drawnPoints_in_box.
Qed.

Lemma scanPoints_boxed (p1 p2 : Point F) (doSmooth : bool) :
  boxed p1 -> boxed p2 -> Forall boxed (scanPoints p1 p2 doSmooth).
Proof.
  intros H1 H2.
  eapply Forall_impl; [|apply (scanPoints_in_box p1 p2 doSmooth)].
  intros q. unfold boxed, inBox in *.
  change (fst (getCoords p1)) with (px p1) in H1.
  change (snd (getCoords p1)) with (py p1) in H1.
  change (fst (getCoords p2)) with (px p2) in H2.
  change (snd (getCoords p2)) with (py p2) in H2.
  lia.
Qed.

Lemma fillFlat_in_box (buff buff' : Buff F) (v1 v2 v3 : Point F)
    (doSmooth : bool) :
  boxed v1 -> boxed v2 -> boxed v3 ->
  fillFlat buff v1 v2 v3 doSmooth = Ok buff' ->
  exists new, buff' = buff ++ new /\ written new.
Proof.
  intros H1 H2 H3. rewrite fillFlat_edges.
  destruct (edges v1 v2 v3 doSmooth) as [[line1 line2]|] eqn:He; [|discriminate].
  cbn [bind fst snd]. intros Hrun.
  destruct (edges_lines _ _ _ _ _ _ He) as [Hl1 Hl2].
  assert (Hb1 : Forall boxed line1) by (subst line1; now apply scanPoints_boxed).
  assert (Hb2 : Forall boxed line2).
  { destruct Hl2 as [-> | ->]; [now apply scanPoints_boxed|].
    apply Forall_rev. now apply scanPoints_boxed. }
  destruct (runEvents_in_box (scanEvents line1 line2)) with (buff := buff)
    as (new & Hnew & Hw).
  - apply Forall_forall. intros q Hq.
    rewrite Forall_forall in Hb1, Hb2.
    destruct (eventPoints_scanEvents _ _ _ Hq); auto.
  - exists new. split; [congruence|exact Hw].
Qed.

Lemma drawTriangle_in_box_aux (depth : nat) :
  forall (buff buff' : Buff F) (p1 p2 p3 : Point F) (doSmooth : bool),
    boxed p1 -> boxed p2 -> boxed p3 ->
    drawTriangle depth buff p1 p2 p3 doSmooth = Ok buff' ->
    exists new, buff' = buff ++ new /\ written new.
Proof.
  induction depth as [|depth IH]; intros buff buff' p1 p2 p3 doSmooth H1 H2 H3;
    [discriminate|].
  rewrite drawTriangle_unfold.
  assert (H2' : boxed (recolor doSmooth p1 p2))
    by (unfold boxed; now rewrite coords_recolor).
  assert (H3' : boxed (recolor doSmooth p1 p3))
    by (unfold boxed; now rewrite coords_recolor).
  destruct (flatChoice p1 (recolor doSmooth p1 p2) (recolor doSmooth p1 p3))
    as [[[v1 v2] v3]|] eqn:Hflat.
  - apply flatChoice_members in Hflat as (Hv1 & Hv2 & Hv3).
    apply fillFlat_in_box;
      [destruct Hv1 as [->|[->| ->]]|destruct Hv2 as [->|[->| ->]]
      |destruct Hv3 as [->|[->| ->]]]; assumption.
  - destruct (splitChoice p1 (recolor doSmooth p1 p2) (recolor doSmooth p1 p3))
      as [[[[[a b] y] [u1 u2]] [w1 w2]]|] eqn:Hchoice; [|discriminate].
    pose proof (splitChoice_levels _ _ _ _ _ _ _ _ _ _ Hchoice)
      as (_ & _ & _ & Hmem).
    assert (Hbox : forall x, In x [a; b; u1; u2; w1; w2] -> boxed x).
    { intros x Hx. destruct (Hmem x Hx) as [->|[->| ->]]; assumption. }
    destruct (pointsOnLine a b true) as [line|] eqn:Hline; [|discriminate].
    cbn [bind]. apply pointsOnLine_inv in Hline.
    destruct (splitSearch line y) as [s|] eqn:Hs; [|discriminate].
    cbn [bind]. apply splitSearch_ok_inv in Hs as (pre & post & Hl & _ & _).
    assert (Hsb : boxed s).
    { assert (Hall : Forall boxed line).
      { rewrite Hline. apply scanPoints_boxed; apply Hbox; cbn; tauto. }
      rewrite Forall_forall in Hall. apply Hall. rewrite Hl.
      apply in_or_app. right. now left. }
    destruct (drawTriangle depth buff u1 u2 s doSmooth) as [b1|] eqn:E1;
      [|discriminate].
    cbn [bind]. intros E2.
    apply IH in E1 as (new1 & -> & Hw1); [|apply Hbox; cbn; tauto..|exact Hsb].
    apply IH in E2 as (new2 & -> & Hw2); [|apply Hbox; cbn; tauto..|exact Hsb].
    exists (new1 ++ new2). rewrite app_assoc. split; [reflexivity|].
    apply Forall_app. auto.
Qed.

End TriangleWrites.

Section TriangleBox.

Context {F : Type} `{Channel F}.

(** X12: a call of [drawTriangle] that returns has kept what the framebuffer
    log held and has written only pixels of any rectangle that holds the
    three vertices; so vertices inside the framebuffer give writes inside
    the framebuffer. *)
Theorem drawTriangle_in_box (xlo xhi ylo yhi : Z) (depth : nat)
    (buff buff' : Buff F) (p1 p2 p3 : Point F) (doSmooth : bool) :
  inBox xlo xhi ylo yhi (getCoords p1) ->
  inBox xlo xhi ylo yhi (getCoords p2) ->
  inBox xlo xhi ylo yhi (getCoords p3) ->
  drawTriangle depth buff p1 p2 p3 doSmooth = Ok buff' ->
  exists new,
    buff' = buff ++ new
    /\ Forall (fun st => inBox xlo xhi ylo yhi (storeXY st)) new.
Proof. apply drawTriangle_in_box_aux. Qed.

End TriangleBox.

(** ** Smooth colours at the two ends, in exact arithmetic *)

Section ExactEnds.

Import Exact.

Local Open Scope Q_scope.




End ExactEnds.

(** ** The handlers *)

Section HandlerFacts.

Context {F : Type} `{Channel F}.

Import Sketch.

Lemma drawTriangle_flat_total (depth : nat) (b : Buff F) (p1 p2 p3 : Point F) :
  exists b', drawTriangle (S (S depth)) b p1 p2 p3 false = Ok b'.
Proof.
  destruct (flatChoice p1 p2 p3) as [[[v1 v2] v3]|] eqn:Hflat.
  - apply drawTriangle_flat_mode_ok. unfold flatChoice in Hflat.
    destruct (Z.eqb_spec (py p1) (py p2)); [auto|].
    destruct (Z.eqb_spec (py p2) (py p3)); [auto|].
    destruct (Z.eqb_spec (py p3) (py p1)); [auto|discriminate].
  - apply flatChoice_none in Hflat as (H12 & H23 & H31).
    now apply drawTriangle_split_ok.
Qed.

(** X14: two left clicks, the first with no point pending, draw the segment
    from the second clicked point to the first one, in the shading mode of
    the canvas, raise nothing and leave no point pending; the right-click
    list is not touched. *)
Theorem left_click_pair (st : State) (x1 y1 x2 y2 : Z) (r1 r2 : F * F * F) :
  points_l st = [] ->
  exists buff',
    drawLine (buff st) (newPoint (randomColor st) r2 x2 y2)
             (newPoint (randomColor st) r1 x1 y1) (doSmooth st) = Ok buff'
    /\ clicks Interrupt_MouseL st [(x1, y1, r1); (x2, y2, r2)]
       = (mkState [] (points_r st) buff' (randomColor st) (doSmooth st), None).
Proof.
  intros Hempty.
  destruct (drawLine (buff st) (newPoint (randomColor st) r2 x2 y2)
              (newPoint (randomColor st) r1 x1 y1) (doSmooth st))
    as [buff'|e] eqn:Hline; [|rewrite drawLine_eq in Hline; discriminate].
  exists buff'. split; [reflexivity|].
  cbn [clicks]. unfold Interrupt_MouseL, addPoint2Pointlist.
  rewrite Hempty. cbn -[drawLine]. rewrite Hline. reflexivity.
Qed.

Lemma left_click_step (st : State) (x y : Z) (rnd : F * F * F) :
  (length (points_l st) <= 1)%nat ->
  exists st',
    Interrupt_MouseL st x y rnd = (st', None)
    /\ (length (points_l st') = 1 - length (points_l st))%nat
    /\ points_r st' = points_r st.
Proof.
  intros Hlen. unfold Interrupt_MouseL, addPoint2Pointlist.
  destruct (points_l st) as [|q [|q' t]]; [| |cbn in Hlen; lia].
  - cbn -[drawLine]. eexists. repeat split.
  - cbn -[drawLine]. rewrite drawLine_eq. eexists. repeat split.
Qed.

(** X15: starting with no point pending, any number of left clicks raises
    nothing, leaves one point pending after an odd number of clicks and none
    after an even number, and never touches the right-click list. *)
Theorem left_clicks_parity (st : State) (cs : list Click) :
  points_l st = [] ->
  snd (clicks Interrupt_MouseL st cs) = None
  /\ Z.of_nat (length (points_l (fst (clicks Interrupt_MouseL st cs))))
     = Z.of_nat (length cs) mod 2
  /\ points_r (fst (clicks Interrupt_MouseL st cs)) = points_r st.
Proof.
  intros Hempty.
  assert (Hgen : forall cs st,
             (length (points_l st) <= 1)%nat ->
             snd (clicks Interrupt_MouseL st cs) = None
             /\ Z.of_nat (length (points_l (fst (clicks Interrupt_MouseL st cs))))
                = (Z.of_nat (length (points_l st)) + Z.of_nat (length cs)) mod 2
             /\ points_r (fst (clicks Interrupt_MouseL st cs)) = points_r st).
  { clear. induction cs as [|[[x y] rnd] cs IH]; intros st Hlen.
    - cbn [clicks fst snd length]. repeat split.
      rewrite Z.add_0_r, Z.mod_small; lia.
    - cbn [clicks].
      destruct (left_click_step st x y rnd Hlen) as (st' & -> & Hl & Hr).
      destruct (IH st') as (He & Hn & Hr'); [lia|].
      split; [exact He|]. split; [|congruence].
      rewrite Hn. cbn [length].
      assert (Hcase : length (points_l st) = 0%nat
                      \/ length (points_l st) = 1%nat) by lia.
      destruct Hcase as [E|E]; rewrite Hl, E.
      + f_equal. lia.
      + replace (Z.of_nat 1 + Z.of_nat (S (length cs)))
          with (Z.of_nat (1 - 1) + Z.of_nat (length cs) + 1 * 2) by lia.
        now rewrite Z.mod_add by lia. }
  destruct (Hgen cs st) as (He & Hn & Hr); [rewrite Hempty; cbn; lia|].
  repeat split; auto. now rewrite Hn, Hempty.
Qed.

Lemma right_click_step_flat (st : State) (x y : Z) (rnd : F * F * F) :
  doSmooth st = false ->
  (length (points_r st) <= 2)%nat ->
  exists st',
    Interrupt_MouseR st x y rnd = (st', None)
    /\ doSmooth st' = false
    /\ Z.of_nat (length (points_r st'))
       = (Z.of_nat (length (points_r st)) + 1) mod 3
    /\ points_l st' = points_l st.
Proof.
  intros Hflat Hlen. unfold Interrupt_MouseR, addPoint2Pointlist.
  destruct (points_r st) as [|a [|b [|c t]]]; [| | |cbn in Hlen; lia].
  - cbn -[drawLine]. eexists. repeat split. exact Hflat.
  - cbn -[drawLine]. rewrite drawLine_eq. eexists. repeat split. exact Hflat.
  - cbn -[drawTriangle callDepth]. rewrite Hflat.
    change callDepth with (S (S 998)).
    destruct (drawTriangle_flat_total 998 (buff st) a b
                (newPoint (randomColor st) rnd x y)) as (b' & ->).
    eexists. repeat split.
Qed.

(** X16: in flat mode, starting with no point pending, any number of right
    clicks raises nothing; the number of pending points is the number of
    clicks modulo three, and the left-click list is not touched. *)
Theorem right_clicks_flat (st : State) (cs : list Click) :
  doSmooth st = false ->
  points_r st = [] ->
  snd (clicks Interrupt_MouseR st cs) = None
  /\ Z.of_nat (length (points_r (fst (clicks Interrupt_MouseR st cs))))
     = Z.of_nat (length cs) mod 3
  /\ points_l (fst (clicks Interrupt_MouseR st cs)) = points_l st.
Proof.
  intros Hflat Hempty.
  assert (Hgen : forall cs st,
             doSmooth st = false ->
             (length (points_r st) <= 2)%nat ->
             snd (clicks Interrupt_MouseR st cs) = None
             /\ Z.of_nat (length (points_r (fst (clicks Interrupt_MouseR st cs))))
                = (Z.of_nat (length (points_r st)) + Z.of_nat (length cs)) mod 3
             /\ points_l (fst (clicks Interrupt_MouseR st cs)) = points_l st).
  { clear. induction cs as [|[[x y] rnd] cs IH]; intros st Hflat Hlen.
    - cbn [clicks fst snd length]. repeat split.
      rewrite Z.add_0_r, Z.mod_small; lia.
    - cbn [clicks].
      destruct (right_click_step_flat st x y rnd Hflat Hlen)
        as (st' & -> & Hf & Hl & Hr).
      assert (Hlen' : (length (points_r st') <= 2)%nat).
      { pose proof (Z.mod_pos_bound (Z.of_nat (length (points_r st)) + 1) 3).
        lia. }
      destruct (IH st' Hf Hlen') as (He & Hn & Hr').
      split; [exact He|]. split; [|congruence].
      rewrite Hn, Hl. cbn [length].
      rewrite Zplus_mod_idemp_l. f_equal. lia. }
  destruct (Hgen cs st Hflat) as (He & Hn & Hr); [rewrite Hempty; cbn; lia|].
  repeat split; auto. now rewrite Hn, Hempty.
Qed.

(** X17: in smooth mode three right clicks on one pixel, the first with no
    point pending: the second click writes that pixel, the third raises
    [ZeroDivisionError] and leaves the three points in the list and the
    framebuffer as the second click left it. *)
Theorem right_click_triple_smooth (st : State) (x y : Z)
    (r1 r2 r3 : F * F * F) :
  doSmooth st = true ->
  points_r st = [] ->
  clicks Interrupt_MouseR st [(x, y, r1); (x, y, r2); (x, y, r3)]
  = (mkState (points_l st)
             [newPoint (randomColor st) r1 x y;
              newPoint (randomColor st) r2 x y;
              newPoint (randomColor st) r3 x y]
             (buff st
              ++ pixelStores (dotPoint (newPoint (randomColor st) r1 x y)
                                       (newPoint (randomColor st) r2 x y) true))
             (randomColor st) true,
     Some ZeroDivisionError).
Proof.
  intros Hsmooth Hempty.
  assert (Hc : forall r r', getCoords (newPoint (randomColor st) r x y)
                            = getCoords (newPoint (randomColor st) r' x y)).
  { intros r r'. unfold newPoint. destruct (randomColor st); reflexivity. }
  cbn [clicks]. unfold Interrupt_MouseR, addPoint2Pointlist.
  rewrite Hempty, Hsmooth. cbn -[drawLine drawTriangle callDepth].
  rewrite (drawLine_zero _ _ _ true (Hc r1 r2)).
  cbn -[drawLine drawTriangle callDepth drawPoint].
  change callDepth with (S 999).
  rewrite drawTriangle_unfold. unfold flatChoice, recolor. cbn [negb].
  rewrite (py_coords _ _ (Hc r1 r2)), Z.eqb_refl.
  rewrite fillFlat_raise by (left; apply Hc).
  rewrite drawPoint_stores. reflexivity.
Qed.

End HandlerFacts.

(** ** The test-case status *)

Section KeyboardFacts.

Import Sketch.

Lemma roundHalf_bounds (n : Z) : n / 2 <= roundHalf n <= n / 2 + 1.
Proof.
  unfold roundHalf. destruct (Z.even n), (Z.even (n / 2)); lia.
Qed.

Lemma steps_step (n : Z) (more : bool) :
  MIN_N_STEPS <= n <= MAX_N_STEPS ->
  MIN_N_STEPS <= (if more then moreSteps n else fewerSteps n) <= MAX_N_STEPS.
Proof.
  unfold MIN_N_STEPS, MAX_N_STEPS, moreSteps, fewerSteps. intros Hn.
  pose proof (roundHalf_bounds n) as Hr.
  assert (n / 2 <= 96) by (apply Z.div_le_upper_bound; lia).
  destruct more; unfold MIN_N_STEPS, MAX_N_STEPS; lia.
Qed.

(** X18: whatever keys of [,] [<] [.] [>] are pressed, [n_steps] stays
    between [MIN_N_STEPS] and [MAX_N_STEPS] once it is there (it starts
    at 12). *)
Theorem n_steps_in_range (n_steps : Z) (keys : list bool) :
  MIN_N_STEPS <= n_steps <= MAX_N_STEPS ->
  MIN_N_STEPS <= pressSteps n_steps keys <= MAX_N_STEPS.
Proof.
  unfold pressSteps. revert n_steps.
  induction keys as [|k keys IH]; intros n Hn; cbn [fold_left]; [exact Hn|].
  apply IH. now apply steps_step.
Qed.

(** X19: with a test-case list that is not empty the index stays a valid
    index under both updates, whatever it was before, and on a valid index
    the two updates undo each other: the previous case of the next case is
    the case itself, and the other way round. *)
Theorem test_case_index_cycle (count i : Z) :
  0 < count ->
  0 <= nextCase count i < count
  /\ 0 <= prevCase count i < count
  /\ (0 <= i < count ->
      prevCase count (nextCase count i) = i
      /\ nextCase count (prevCase count i) = i).
Proof.
  intros Hc. unfold nextCase, prevCase.
  destruct (Z.eqb_spec count 0) as [Hz|_]; [lia|]. cbn [negb].
  split; [apply Z.mod_pos_bound; lia|].
  split; [apply Z.mod_pos_bound; lia|].
  intros Hi. split.
  - rewrite Zminus_mod_idemp_l.
    replace (i + 1 - 1) with i by lia. apply Z.mod_small. lia.
  - rewrite Zplus_mod_idemp_l.
    replace (i - 1 + 1) with i by lia. apply Z.mod_small. lia.
Qed.

End KeyboardFacts.

(** ** The further properties at sample inputs *)

Import Samples.

Lemma pointsOnLine_length_witness :
  Z.of_nat (length segFlat)
  = Z.max (Z.abs (px seg2 - px seg1)) (Z.abs (py seg2 - py seg1)) + 1.
Proof. apply (pointsOnLine_length seg1 seg2 false segFlat). reflexivity. Defined.

Lemma pointsOnLine_in_box_witness :
  Forall (fun q => Z.min (px seg1) (px seg2) <= px q <= Z.max (px seg1) (px seg2)
                   /\ Z.min (py seg1) (py seg2) <= py q
                      <= Z.max (py seg1) (py seg2))
         segFlat.
Proof. apply (pointsOnLine_in_box seg1 seg2 false segFlat). reflexivity. Defined.

Lemma pointsOnLine_half_pixel_witness :
  Forall (fun q =>
            2 * Z.abs ((px seg2 - px seg1) * (py q - py seg1)
                       - (py seg2 - py seg1) * (px q - px seg1))
            <= Z.max (Z.abs (px seg2 - px seg1)) (Z.abs (py seg2 - py seg1)))
         segFlat.
Proof.
  apply (pointsOnLine_half_pixel seg1 seg2 false segFlat). reflexivity.
Defined.

Lemma drawLine_swap_witness :
  drawLine [] seg2 seg1 true = drawLine [] seg1 seg2 true.
Proof. apply (drawLine_swap [] seg1 seg2). discriminate. Defined.

Lemma walk_fills_every_level_witness :
  Z.of_nat (length (fills (scanEvents edge1 edge2)))
  = Z.abs (py apex - py flat1) + 1
  /\ forall y,
       Z.min (py apex) (py flat1) <= y <= Z.max (py apex) (py flat1) ->
       exists a b,
         In (a, b) (fills (scanEvents edge1 edge2)) /\ py a = y /\ py b = y.
Proof.
  apply (walk_fills_every_level flat1 flat2 apex flat1 flat2 apex false
           edge1 edge2); reflexivity.
Defined.

Lemma drawTriangle_in_box_witness :
  exists new,
    flatTriangleLog = [] ++ new
    /\ Forall (fun st => inBox 0 8 0 2 (storeXY st)) new.
Proof.
  apply (drawTriangle_in_box 0 8 0 2 1 [] flatTriangleLog flat1 flat2 apex
           false); try reflexivity; unfold inBox; cbn; lia.
Defined.


Lemma left_click_pair_witness :
  exists buff',
    drawLine (Sketch.buff flatCanvas)
             (Sketch.newPoint (Sketch.randomColor flatCanvas) noRandom 4 0)
             (Sketch.newPoint (Sketch.randomColor flatCanvas) noRandom 0 0)
             (Sketch.doSmooth flatCanvas) = Ok buff'
    /\ Sketch.clicks Sketch.Interrupt_MouseL flatCanvas
         [(0, 0, noRandom); (4, 0, noRandom)]
       = (Sketch.mkState [] (Sketch.points_r flatCanvas) buff'
            (Sketch.randomColor flatCanvas) (Sketch.doSmooth flatCanvas), None).
Proof.
  apply (left_click_pair flatCanvas 0 0 4 0 noRandom noRandom). reflexivity.
Defined.

Lemma left_clicks_parity_witness :
  snd (Sketch.clicks Sketch.Interrupt_MouseL smoothCanvas fourClicks) = None
  /\ Z.of_nat (length (Sketch.points_l
                         (fst (Sketch.clicks Sketch.Interrupt_MouseL
                                 smoothCanvas fourClicks))))
     = Z.of_nat (length fourClicks) mod 2
  /\ Sketch.points_r (fst (Sketch.clicks Sketch.Interrupt_MouseL
                             smoothCanvas fourClicks))
     = Sketch.points_r smoothCanvas.
Proof. apply (left_clicks_parity smoothCanvas fourClicks). reflexivity. Defined.

Lemma right_clicks_flat_witness :
  snd (Sketch.clicks Sketch.Interrupt_MouseR flatCanvas fourClicks) = None
  /\ Z.of_nat (length (Sketch.points_r
                         (fst (Sketch.clicks Sketch.Interrupt_MouseR
                                 flatCanvas fourClicks))))
     = Z.of_nat (length fourClicks) mod 3
  /\ Sketch.points_l (fst (Sketch.clicks Sketch.Interrupt_MouseR
                             flatCanvas fourClicks))
     = Sketch.points_l flatCanvas.
Proof.
  apply (right_clicks_flat flatCanvas fourClicks); reflexivity.
Defined.

Lemma right_click_triple_smooth_witness :
  Sketch.clicks Sketch.Interrupt_MouseR smoothCanvas
    [(5, 7, noRandom); (5, 7, noRandom); (5, 7, noRandom)]
  = (Sketch.mkState (Sketch.points_l smoothCanvas)
       [Sketch.newPoint (Sketch.randomColor smoothCanvas) noRandom 5 7;
        Sketch.newPoint (Sketch.randomColor smoothCanvas) noRandom 5 7;
        Sketch.newPoint (Sketch.randomColor smoothCanvas) noRandom 5 7]
       (Sketch.buff smoothCanvas
        ++ pixelStores
             (dotPoint
                (Sketch.newPoint (Sketch.randomColor smoothCanvas) noRandom 5 7)
                (Sketch.newPoint (Sketch.randomColor smoothCanvas) noRandom 5 7)
                true))
       (Sketch.randomColor smoothCanvas) true,
     Some ZeroDivisionError).
Proof.
  apply (right_click_triple_smooth smoothCanvas 5 7 noRandom noRandom noRandom);
    reflexivity.
Defined.

Lemma n_steps_in_range_witness :
  Sketch.MIN_N_STEPS
  <= Sketch.pressSteps 12 [false; false; true; true; true; true; true; false]
  <= Sketch.MAX_N_STEPS.
Proof.
  apply (n_steps_in_range 12); unfold Sketch.MIN_N_STEPS, Sketch.MAX_N_STEPS; lia.
Defined.

Lemma test_case_index_cycle_witness :
  0 <= Sketch.nextCase 6 5 < 6
  /\ 0 <= Sketch.prevCase 6 5 < 6
  /\ (0 <= 5 < 6 ->
      Sketch.prevCase 6 (Sketch.nextCase 6 5) = 5
      /\ Sketch.nextCase 6 (Sketch.prevCase 6 5) = 5).
Proof. apply (test_case_index_cycle 6 5). lia. Defined.

(** ** The walk on any two sequences *)

Section WalkAny.

Context {F : Type} `{Channel F}.

Lemma plots_runInner (line1 line2 : list (Point F)) (q : Point F) :
  In q (plots (scanEvents line1 line2)) ->
  In q (runInner line1) \/ In q (runInner line2).
Proof.
  intros Hq. apply plots_scanEvents in Hq as (pre & post & [Hl|Hl] & Hs);
    [left|right]; apply runInner_In; eauto.
Qed.

(** X20: on any two point sequences, empty ones included, the dual-edge
    loop raises nothing; its filling lines join the k-th run end of the
    first sequence with the k-th run end of the second, for as many runs as
    both have, and what it plots alone are points followed by a point of
    the same [y]. *)
Theorem scanFill_pairs_run_ends (buff : Buff F) (line1 line2 : list (Point F)) :
  scanFill buff line1 line2 = runEvents buff (scanEvents line1 line2)
  /\ (exists buff', scanFill buff line1 line2 = Ok buff')
  /\ fills (scanEvents line1 line2) = combine (runEnds line1) (runEnds line2)
  /\ (forall q, In q (plots (scanEvents line1 line2)) ->
                In q (runInner line1) \/ In q (runInner line2)).
Proof.
  split; [apply scanFill_events|]. split.
  - rewrite scanFill_events. apply runEvents_total.
  - split; [apply fills_scanEvents|]. intros q. apply plots_runInner.
Qed.

End WalkAny.

(** ** The colour of a flat-shaded triangle, in exact arithmetic *)

Section FlatColour.

Import Exact.

Variable c : ColorType Q.









End FlatColour.


(** ** The vertices are drawn *)

Section Vertices.

Context {F : Type} `{Channel F}.

(** Some assignment of [new] goes to the pixel of [q]. *)
Let hits (new : Buff F) (q : Point F) : Prop :=
  exists st, In st new /\ storeXY st = getCoords q.

Lemma hits_app_l (new new' : Buff F) (q : Point F) :
  hits new q -> hits (new ++ new') q.
Proof. intros (st & Hst & Hxy). exists st. split; [apply in_or_app; auto|auto]. Qed.

Lemma hits_app_r (new new' : Buff F) (q : Point F) :
  hits new' q -> hits (new ++ new') q.
Proof. intros (st & Hst & Hxy). exists st. split; [apply in_or_app; auto|auto]. Qed.

Lemma hits_coords (new : Buff F) (q q' : Point F) :
  getCoords q = getCoords q' -> hits new q -> hits new q'.
Proof. intros Hc (st & Hst & Hxy). exists st. split; [auto|congruence]. Qed.

Lemma pixelStores_hits (q : Point F) : hits (pixelStores q) q.
Proof.
  eexists. split; [left; reflexivity|].
  unfold storeXY, px, py. cbn [fst snd]. now destruct (getCoords q).
Qed.

Lemma stores_hit (l : list (Point F)) (q : Point F) :
  In (getCoords q) (map getCoords l) -> hits (flat_map pixelStores l) q.
Proof.
  intros Hin. apply in_map_iff in Hin as (q' & Hc & Hq').
  apply (hits_coords _ q' q Hc).
  induction l as [|a l IH]; [contradiction|]. cbn [flat_map].
  destruct Hq' as [->|Hq']; [apply hits_app_l, pixelStores_hits|].
  apply hits_app_r. now apply IH.
Qed.

Lemma scanPoints_has_ends (p1 p2 : Point F) (doSmooth : bool) :
  In (getCoords p1) (map getCoords (scanPoints p1 p2 doSmooth))
  /\ In (getCoords p2) (map getCoords (scanPoints p1 p2 doSmooth)).
Proof.
  destruct (scanPoints_head p1 p2 doSmooth) as (q & t & Hqt & Hq).
  pose proof (scanPoints_last p1 p2 doSmooth q) as Hlast.
  assert (Hin1 : In (getCoords (lft p1 p2))
                    (map getCoords (scanPoints p1 p2 doSmooth))).
  { rewrite Hqt, <- Hq. apply in_map. now left. }
  assert (Hin2 : In (getCoords (rgt p1 p2))
                    (map getCoords (scanPoints p1 p2 doSmooth))).
  { rewrite <- Hlast. apply in_map. rewrite Hqt.
    destruct (exists_last (l := q :: t)) as (pre & z & Hz); [discriminate|].
    rewrite Hz, last_last. apply in_or_app. right. now left. }
  destruct (lft_rgt_cases p1 p2) as [[Ha Hb]|[Ha Hb]];
    rewrite Ha, Hb in *; auto.
Qed.

Lemma drawnPoints_has_ends (a b : Point F) (doSmooth : bool) :
  In (getCoords a) (map getCoords (drawnPoints a b doSmooth))
  /\ In (getCoords b) (map getCoords (drawnPoints a b doSmooth)).
Proof. rewrite drawnPoints_coords. apply scanPoints_has_ends. Qed.

Lemma runEvents_hits (evs : list Event) :
  forall buff, exists new,
    runEvents buff evs = Ok (buff ++ new)
    /\ forall q, In q (eventPoints evs) -> hits new q.
Proof.
  induction evs as [|[p|a b] evs IH]; cbn [eventPoints runEvents]; intros buff.
  - exists []. split; [now rewrite app_nil_r|contradiction].
  - destruct (IH (drawPoint buff p)) as (new & -> & Hnew).
    exists (pixelStores p ++ new). rewrite drawPoint_stores, <- app_assoc.
    split; [reflexivity|]. intros q [<-|Hq].
    + apply hits_app_l, pixelStores_hits.
    + apply hits_app_r. auto.
  - rewrite drawLine_log. cbn [bind].
    destruct (IH (buff ++ flat_map pixelStores (drawnPoints a b true)))
      as (new & -> & Hnew).
    exists (flat_map pixelStores (drawnPoints a b true) ++ new).
    rewrite <- app_assoc. split; [reflexivity|].
    destruct (drawnPoints_has_ends a b true) as [Ha Hb].
    intros q [<-|[<-|Hq]].
    + now apply hits_app_l, stores_hit.
    + now apply hits_app_l, stores_hit.
    + apply hits_app_r. auto.
Qed.

(** When the two sequences have as many runs the walk uses every point. *)
Lemma eventPoints_complete (line1 : list (Point F)) :
  forall line2,
    length (runEnds line1) = length (runEnds line2) ->
    forall q, In q line1 \/ In q line2 ->
              In q (eventPoints (scanEvents line1 line2)).
Proof.
  induction line1 as [|a line1' IH1]; intros line2.
  - destruct line2 as [|b line2']; [intros _ q [[]|[]]|].
    intros Hlen. pose proof (runEnds_nonempty b line2') as Hne.
    destruct (runEnds (b :: line2')); [congruence|discriminate].
  - induction line2 as [|b line2' IH2].
    + intros Hlen. pose proof (runEnds_nonempty a line1') as Hne.
      destruct (runEnds (a :: line1')); [congruence|discriminate].
    + rewrite scanEvents_step. cbn [runEnds].
      destruct (sameYNext a line1') eqn:Ea.
      * intros Hlen q Hq. cbn [eventPoints].
        destruct Hq as [[<-|Hq]|Hq]; [now left| |]; right;
          apply IH1; cbn [runEnds]; auto.
      * destruct (sameYNext b line2') eqn:Eb.
        -- intros Hlen q Hq. cbn [eventPoints].
           destruct Hq as [Hq|[<-|Hq]]; [|now left|]; right;
             apply IH2; cbn [runEnds]; rewrite ?Ea; auto.
        -- intros Hlen q Hq. cbn [eventPoints]. cbn [length] in Hlen.
           destruct Hq as [[<-|Hq]|[<-|Hq]];
             [now left|right; right|right; now left|right; right];
             apply IH1; auto; lia.
Qed.

Lemma fillFlat_hits (buff buff' : Buff F) (v1 v2 v3 : Point F)
    (doSmooth : bool) :
  py v1 = py v2 ->
  fillFlat buff v1 v2 v3 doSmooth = Ok buff' ->
  exists new, buff' = buff ++ new
              /\ hits new v1 /\ hits new v2 /\ hits new v3.
Proof.
  intros Hflat. rewrite fillFlat_edges.
  destruct (edges v1 v2 v3 doSmooth) as [[line1 line2]|] eqn:He; [|discriminate].
  cbn [bind fst snd]. intros Hrun.
  destruct (edges_lines _ _ _ _ _ _ He) as [Hl1 Hl2].
  destruct (edges_aligned v1 v2 v3 doSmooth line1 line2 Hflat He)
    as (d1 & d2 & q1 & t1 & q2 & t2 & E1 & E2 & Hd1 & Hd2 & Hp1 & Hp2 & Hq & Hl).
  assert (Hlen : length (runEnds line1) = length (runEnds line2)).
  { rewrite E1, E2 in *.
    pose proof (runEnds_same_levels d1 d2 q1 q2 t1 t2 Hd1 Hd2 Hp1 Hp2 Hq Hl)
      as Hlev.
    apply (f_equal (@length _)) in Hlev. now rewrite !length_map in Hlev. }
  destruct (runEvents_hits (scanEvents line1 line2) buff) as (new & Hnew & Hh).
  exists new. split; [congruence|].
  assert (Hline : forall v l, In (getCoords v) (map getCoords l) ->
                              (forall q, In q l -> In q line1 \/ In q line2) ->
                              hits new v).
  { intros v l Hin Hsub. apply in_map_iff in Hin as (q & Hc & Hq').
    apply (hits_coords _ q v Hc), Hh, eventPoints_complete; auto. }
  destruct (scanPoints_has_ends v3 v1 doSmooth) as [H31 H11].
  destruct (scanPoints_has_ends v3 v2 doSmooth) as [_ H22].
  repeat split.
  - apply (Hline v1 _ H11). intros q Hq'. left. now rewrite Hl1.
  - apply (Hline v2 _ H22). intros q Hq'. right.
    destruct Hl2 as [-> | ->]; [exact Hq'|now apply in_rev in Hq'].
  - apply (Hline v3 _ H31). intros q Hq'. left. now rewrite Hl1.
Qed.

Lemma flatChoice_covers (p1 p2 p3 v1 v2 v3 : Point F) :
  flatChoice p1 p2 p3 = Some (v1, v2, v3) ->
  In p1 [v1; v2; v3] /\ In p2 [v1; v2; v3] /\ In p3 [v1; v2; v3].
Proof.
  unfold flatChoice.
  destruct (py p1 =? py p2); [intros [= <- <- <-]; cbn; tauto|].
  destruct (py p2 =? py p3); [intros [= <- <- <-]; cbn; tauto|].
  destruct (py p3 =? py p1); [intros [= <- <- <-]; cbn; tauto|discriminate].
Qed.

Lemma splitChoice_covers (p1 p2 p3 a b u1 u2 w1 w2 : Point F) (y : Z) :
  splitChoice p1 p2 p3 = Some (a, b, y, (u1, u2), (w1, w2)) ->
  In p1 [u1; u2; w1; w2] /\ In p2 [u1; u2; w1; w2] /\ In p3 [u1; u2; w1; w2].
Proof.
  unfold splitChoice.
  destruct (between (py p1) (py p2) (py p3));
    [|destruct (between (py p2) (py p1) (py p3));
      [|destruct (between (py p3) (py p1) (py p2)); [|discriminate]]];
    intros [= <- <- <- <- <- <- <-]; cbn; tauto.
Qed.

Lemma drawTriangle_hits (depth : nat) :
  forall (buff buff' : Buff F) (p1 p2 p3 : Point F) (doSmooth : bool),
    drawTriangle depth buff p1 p2 p3 doSmooth = Ok buff' ->
    exists new, buff' = buff ++ new
                /\ hits new p1 /\ hits new p2 /\ hits new p3.
Proof.
  induction depth as [|depth IH]; intros buff buff' p1 p2 p3 doSmooth;
    [discriminate|].
  rewrite drawTriangle_unfold.
  assert (Hre : forall new q, hits new (recolor doSmooth p1 q) -> hits new q).
  { intros new q. apply hits_coords, coords_recolor. }
  destruct (flatChoice p1 (recolor doSmooth p1 p2) (recolor doSmooth p1 p3))
    as [[[v1 v2] v3]|] eqn:Hflat.
  - intros Hfill.
    destruct (fillFlat_hits _ _ _ _ _ _ (flatChoice_flat _ _ _ _ _ _ Hflat) Hfill)
      as (new & -> & H1 & H2 & H3).
    exists new. split; [reflexivity|].
    assert (Hv : forall x, In x [v1; v2; v3] -> hits new x).
    { intros x [<-|[<-|[<-|[]]]]; assumption. }
    destruct (flatChoice_covers _ _ _ _ _ _ Hflat) as (C1 & C2 & C3).
    repeat split; [|apply Hre|apply Hre]; now apply Hv.
  - destruct (splitChoice p1 (recolor doSmooth p1 p2) (recolor doSmooth p1 p3))
      as [[[[[a b] y] [u1 u2]] [w1 w2]]|] eqn:Hchoice; [|discriminate].
    destruct (pointsOnLine a b true) as [line|]; [|discriminate]. cbn [bind].
    destruct (splitSearch line y) as [s|]; [|discriminate]. cbn [bind].
    destruct (drawTriangle depth buff u1 u2 s doSmooth) as [b1|] eqn:E1;
      [|discriminate].
    cbn [bind]. intros E2.
    apply IH in E1 as (new1 & -> & Hu1 & Hu2 & _).
    apply IH in E2 as (new2 & -> & Hw1 & Hw2 & _).
    exists (new1 ++ new2). rewrite app_assoc. split; [reflexivity|].
    assert (Hv : forall x, In x [u1; u2; w1; w2] -> hits (new1 ++ new2) x).
    { intros x [<-|[<-|[<-|[<-|[]]]]];
        [apply hits_app_l|apply hits_app_l|apply hits_app_r|apply hits_app_r];
        assumption. }
    destruct (splitChoice_covers _ _ _ _ _ _ _ _ _ _ Hchoice) as (C1 & C2 & C3).
    repeat split; [|apply Hre|apply Hre]; now apply Hv.
Qed.

End Vertices.

Section VerticesDrawn.

Context {F : Type} `{Channel F}.

(** X22: a call of [drawTriangle] that returns has written the pixel of each
    of the three vertices. *)
Theorem drawTriangle_draws_vertices (depth : nat) (buff buff' : Buff F)
    (p1 p2 p3 : Point F) (doSmooth : bool) :
  drawTriangle depth buff p1 p2 p3 doSmooth = Ok buff' ->
  exists new,
    buff' = buff ++ new
    /\ forall p, In p [p1; p2; p3] ->
                 exists st, In st new /\ storeXY st = getCoords p.
Proof.
  intros Hdraw.
  destruct (drawTriangle_hits depth _ _ _ _ _ _ Hdraw) as (new & -> & H1 & H2 & H3).
  exists new. split; [reflexivity|].
  intros p [<-|[<-|[<-|[]]]]; assumption.
Qed.

End VerticesDrawn.

Section EndsDrawn.

Context {F : Type} `{Channel F}.

(** X23: [drawLine] writes the pixel of each of its two endpoints, in both
    modes and for a segment of length zero too. *)
Theorem drawLine_draws_endpoints (buff : Buff F) (p1 p2 : Point F)
    (doSmooth : bool) :
  exists new,
    drawLine buff p1 p2 doSmooth = Ok (buff ++ new)
    /\ (exists st, In st new /\ storeXY st = getCoords p1)
    /\ (exists st, In st new /\ storeXY st = getCoords p2).
Proof.
  exists (flat_map pixelStores (drawnPoints p1 p2 doSmooth)).
  split; [apply drawLine_log|].
  destruct (drawnPoints_has_ends p1 p2 doSmooth) as [H1 H2].
  split; now apply stores_hit.
Qed.

End EndsDrawn.


Lemma drawTriangle_draws_vertices_witness :
  exists new,
    flatTriangleLog = [] ++ new
    /\ forall p, In p [flat1; flat2; apex] ->
                 exists st, In st new /\ storeXY st = getCoords p.
Proof.
  apply (drawTriangle_draws_vertices 1 [] flatTriangleLog flat1 flat2 apex false).
  reflexivity.
Defined.
